(** * LED-Movimento: the motion-to-music note selectors

    A shallow embedding of
    [src/gyroscope and acelerometer/simple_MPU6050_and_Buzzer.cpp]:
    the duration table, the two voice states, [defineNoteDuration],
    [defineMelodyNote], [defineBassNote] and the cycle body [playNote].

    - C++ [int] values are modelled as [Z]; every value the selectors
      compute from voice states inside their documented ranges stays far
      from the limits of a machine integer.
    - C++ [float] magnitudes are modelled as IEEE-754 values
      ([spec_float]) in their binary64 form, which is what the comparisons
      against the literals [0.5] and [0.75] promote them to.  Not-a-number
      and the infinities are values of the type.
    - The global voice states, the Arduino random source and the outputs
      (serial lines, tone requests) are fields of an explicit [world]
      threaded through a state-and-failure monad.  Failure stands for an
      array read outside its bounds. *)

From Stdlib Require Import ZArith List Bool Lia.
From Stdlib Require Import Floats.SpecFloat.
From Equations Require Import Equations.
Import ListNotations.
Open Scope Z_scope.

(* ------------------------------------------------------------------ *)
(** ** Floating-point magnitudes *)

Module Float.

Definition float : Type := spec_float.

(** The binary64 value [m * 2^e], rounded to nearest-even. *)
Definition double_of (m e : Z) : float :=
  binary_normalize 53 1024 m e false.

(** An [int] operand of a mixed comparison, converted to floating point. *)
Definition of_int (z : Z) : float := double_of z 0.

(** A value that a binary64 register can hold. *)
Definition is_double (x : float) : bool := valid_binary 53 1024 x.

(** C++ [x < y], [x > y], [x >= y] on floating-point operands. *)
Definition flt (x y : float) : bool := SFltb x y.
Definition fgt (x y : float) : bool := SFltb y x.
Definition fge (x y : float) : bool := SFleb y x.

(** The literals of the source. *)
Definition lit_0_5 : float := Eval cbv in double_of 1 (-1).
Definition lit_0_75 : float := Eval cbv in double_of 3 (-2).
Definition int_3 : float := Eval cbv in of_int 3.
Definition int_4 : float := Eval cbv in of_int 4.

(** The single-precision values nearest to 0.2 and 0.6, used as sample
    inputs: [13421773 * 2^-26] and [10066330 * 2^-24]. *)
Definition f0_2 : float := Eval cbv in double_of 13421773 (-26).
Definition f0_6 : float := Eval cbv in double_of 10066330 (-24).
Definition f2_0 : float := Eval cbv in of_int 2.
Definition f3_5 : float := Eval cbv in double_of 7 (-1).
Definition f4_0 : float := Eval cbv in of_int 4.
Definition f5_0 : float := Eval cbv in of_int 5.

End Float.

Import Float.

Declare Scope fl_scope.
Delimit Scope fl_scope with fl.
Notation "x <? y" := (Float.flt x y) : fl_scope.
Notation "x >? y" := (Float.fgt x y) : fl_scope.
Notation "x >=? y" := (Float.fge x y) : fl_scope.

(* ------------------------------------------------------------------ *)
(** ** Data *)

(** [struct note] *)
Record note : Type := mkNote {
  pitch : Z;
  octave : Z;
  duration : Z
}.

(** The frequency constants of [pitches.h], kept symbolic. *)
Inductive frequency : Type :=
| NOTE_AS1 | NOTE_C1 | NOTE_D1 | NOTE_DS1 | NOTE_F1 | NOTE_G1 | NOTE_A1
| NOTE_AS2 | NOTE_C2 | NOTE_D2 | NOTE_DS2 | NOTE_F2 | NOTE_G2 | NOTE_A2
| NOTE_AS3 | NOTE_C3 | NOTE_D3 | NOTE_DS3 | NOTE_F3 | NOTE_G3 | NOTE_A3
| NOTE_AS4 | NOTE_C4 | NOTE_D4 | NOTE_DS4 | NOTE_F4 | NOTE_G4 | NOTE_A4
| NOTE_AS5 | NOTE_C5 | NOTE_D5 | NOTE_DS5 | NOTE_F5 | NOTE_G5 | NOTE_A5
| NOTE_AS6 | NOTE_C6 | NOTE_D6 | NOTE_DS6 | NOTE_F6 | NOTE_G6 | NOTE_A6
| SILENCE.

Definition BUZZZER_PIN_1 : Z := 25.
Definition BUZZZER_PIN_2 : Z := 26.

(** [int bb_scale[6][8]]: the B-flat major scale over six octaves. *)
Definition bb_scale : list (list frequency) :=
  [ [NOTE_AS1; NOTE_C1; NOTE_D1; NOTE_DS1; NOTE_F1; NOTE_G1; NOTE_A1; SILENCE];
    [NOTE_AS2; NOTE_C2; NOTE_D2; NOTE_DS2; NOTE_F2; NOTE_G2; NOTE_A2; SILENCE];
    [NOTE_AS3; NOTE_C3; NOTE_D3; NOTE_DS3; NOTE_F3; NOTE_G3; NOTE_A3; SILENCE];
    [NOTE_AS4; NOTE_C4; NOTE_D4; NOTE_DS4; NOTE_F4; NOTE_G4; NOTE_A4; SILENCE];
    [NOTE_AS5; NOTE_C5; NOTE_D5; NOTE_DS5; NOTE_F5; NOTE_G5; NOTE_A5; SILENCE];
    [NOTE_AS6; NOTE_C6; NOTE_D6; NOTE_DS6; NOTE_F6; NOTE_G6; NOTE_A6; SILENCE] ].

(** [int noteDuration[]] *)
Definition noteDuration : list Z :=
  [125; 125; 125; 125; 125; 125; 125; 125; 250; 250;
   250; 250; 500; 500; 500; 500; 1000; 1000; 1000; 1500].

(** [int harmonics[8][3]], local to [defineBassNote]. *)
Definition harmonics : list (list Z) :=
  [ [2; 4; 6]; [3; 5; 0]; [4; 6; 1];
    [5; 0; 2]; [6; 1; 3]; [0; 2; 4];
    [1; 3; 5]; [7; 7; 7] ].

(** What the program sends out. *)
Inductive event : Type :=
| Println (v : Z)
| Tone (pin : Z) (f : frequency).

(** The mutable state of the sketch: the two global voices, the random
    source (an injected sequence of raw draws, which are non-negative, and
    the number of draws taken so far) and the outputs, oldest first. *)
Record world : Type := mkWorld {
  melodyCurrentNote : note;
  bassCurrentNote : note;
  entropy : nat -> N;
  taken : nat;
  output : list event
}.

(** [struct note melodyCurrentNote = {0, 3, 0}] and
    [struct note bassCurrentNote = {0, 0, 0}]. *)
Definition power_on (e : nat -> N) : world :=
  {| melodyCurrentNote := mkNote 0 3 0;
     bassCurrentNote := mkNote 0 0 0;
     entropy := e; taken := 0%nat; output := [] |}.

(* ------------------------------------------------------------------ *)
(** ** The state-and-failure monad *)

Definition M (A : Type) : Type := world -> option (A * world).

Definition ret {A} (a : A) : M A := fun w => Some (a, w).

Definition bind {A B} (c : M A) (k : A -> M B) : M B :=
  fun w => match c w with
           | Some (a, w') => k a w'
           | None => None
           end.

Definition fail {A} : M A := fun _ => None.

Definition gets {A} (f : world -> A) : M A := fun w => Some (f w, w).

Definition modify (f : world -> world) : M unit := fun w => Some (tt, f w).

Notation "x <- c ;; k" := (bind c (fun x => k))
  (at level 61, c at next level, right associativity).
Notation "c ;;; k" := (bind c (fun _ => k))
  (at level 61, right associativity).

(** [a[i]] on a C array: defined inside the bounds only. *)
Definition index {A} (a : list A) (i : Z) : M A :=
  if i <? 0 then fail
  else match nth_error a (Z.to_nat i) with
       | Some x => ret x
       | None => fail
       end.

(** Field assignments on the two globals. *)
Definition set_pitch (n : note) (v : Z) : note := mkNote v (octave n) (duration n).
Definition set_octave (n : note) (v : Z) : note := mkNote (pitch n) v (duration n).
Definition set_duration (n : note) (v : Z) : note := mkNote (pitch n) (octave n) v.

Definition on_melody (f : note -> note) (w : world) : world :=
  {| melodyCurrentNote := f (melodyCurrentNote w);
     bassCurrentNote := bassCurrentNote w;
     entropy := entropy w; taken := taken w; output := output w |}.

Definition on_bass (f : note -> note) (w : world) : world :=
  {| melodyCurrentNote := melodyCurrentNote w;
     bassCurrentNote := f (bassCurrentNote w);
     entropy := entropy w; taken := taken w; output := output w |}.

Definition emit (ev : event) : M unit :=
  modify (fun w =>
    {| melodyCurrentNote := melodyCurrentNote w;
       bassCurrentNote := bassCurrentNote w;
       entropy := entropy w; taken := taken w;
       output := output w ++ [ev] |}).

(** The next raw draw of the random source, and the world once it has
    been taken. *)
Definition raw (w : world) : Z := Z.of_N (entropy w (taken w)).

Definition tick (w : world) : world :=
  {| melodyCurrentNote := melodyCurrentNote w;
     bassCurrentNote := bassCurrentNote w;
     entropy := entropy w; taken := S (taken w);
     output := output w |}.

(** Arduino's [random(howsmall, howbig)]: a value from [howsmall] up to
    [howbig - 1], obtained from the next raw draw reduced modulo the width
    of the range; [howsmall] itself, with no draw, when the range is
    empty. *)
Definition random (howsmall howbig : Z) : M Z :=
  fun w =>
    if howsmall >=? howbig then Some (howsmall, w)
    else Some (howsmall + raw w mod (howbig - howsmall), tick w).

(* ------------------------------------------------------------------ *)
(** ** The selectors *)

(** [int defineNoteDuration (float totalAcc)] *)
Definition defineNoteDuration (totalAcc : float) : M Z :=
  if (totalAcc >? lit_0_5)%fl && (totalAcc <? lit_0_75)%fl
  then i <- random 18 19 ;; index noteDuration i
  else if (totalAcc >? lit_0_75)%fl && (totalAcc <? int_3)%fl
  then i <- random 10 18 ;; index noteDuration i
  else i <- random 0 10 ;; index noteDuration i.

(** [while (pitch > 6) pitch -= 3;] *)
Equations? while_gt6 (pitch : Z) : Z by wf (Z.to_nat pitch) lt :=
  while_gt6 pitch with Z_gt_dec pitch 6 := {
    | left _ => while_gt6 (pitch - 3)
    | right _ => pitch }.
Proof. lia. Qed.

(** [void defineMelodyNote(float totalAcc, float totalSpin)] *)
Definition defineMelodyNote (totalAcc totalSpin : float) : M unit :=
  octave <- gets (fun w => octave (melodyCurrentNote w)) ;;
  pitch <- gets (fun w => pitch (melodyCurrentNote w)) ;;

  let octave := if (totalAcc <? int_3)%fl then octave - 1 else octave in
  let octave := if (totalAcc >=? int_3)%fl then octave + 1 else octave in

  let octave := if octave <? 0 then 5 else octave in
  let octave := if octave >? 5 then 2 else octave in

  pitch <- (if (totalSpin <? int_3)%fl
            then r <- random 0 6 ;; ret (pitch - r) else ret pitch) ;;
  pitch <- (if (totalSpin >? int_4)%fl
            then r <- random 0 6 ;; ret (pitch + r) else ret pitch) ;;

  let pitch := if pitch <? 0 then Z.abs pitch else pitch in
  let pitch := while_gt6 pitch in

  let pitch := if (totalAcc <? lit_0_5)%fl || (totalSpin <? lit_0_5)%fl
               then 7 else pitch in

  modify (on_melody (fun n => set_pitch n pitch)) ;;;
  modify (on_melody (fun n => set_octave n octave)) ;;;
  d <- defineNoteDuration totalAcc ;;
  modify (on_melody (fun n => set_duration n d)).

(** [void defineBassNote(float totalAcc, float totalSpin)] *)
Definition defineBassNote (totalAcc totalSpin : float) : M unit :=
  octave <- gets (fun w => octave (bassCurrentNote w)) ;;

  let octave := if (totalSpin <? int_3)%fl then octave - 1 else octave in
  let octave := if (totalSpin >=? int_3)%fl then octave + 1 else octave in

  let octave := if octave <? 0 then 2 else octave in
  let octave := if octave >? 5 then 0 else octave in

  m <- gets (fun w => pitch (melodyCurrentNote w)) ;;
  row <- index harmonics m ;;
  c <- random 0 2 ;;
  p <- index row c ;;
  modify (on_bass (fun n => set_pitch n p)) ;;;
  modify (on_bass (fun n => set_octave n octave)) ;;;
  d <- defineNoteDuration totalAcc ;;
  modify (on_bass (fun n => set_duration n d)).

(** [bb_scale[octave][pitch]] of a voice. *)
Definition scale_lookup (n : note) : M frequency :=
  row <- index bb_scale (octave n) ;;
  index row (pitch n).

(** [void playNote(sensors_event_t a, sensors_event_t g)], from the two
    planar magnitudes on: the square roots that produce [totalAcc] and
    [totalSpin] are taken by the caller. *)
Definition playNote (totalAcc totalSpin : float) : M unit :=
  defineMelodyNote totalAcc totalSpin ;;;
  defineBassNote totalAcc totalSpin ;;;
  mel <- gets melodyCurrentNote ;;
  emit (Println (duration mel)) ;;;
  emit (Println (octave mel)) ;;;
  emit (Println (pitch mel)) ;;;
  fm <- scale_lookup mel ;;
  emit (Tone BUZZZER_PIN_1 fm) ;;;
  bas <- gets bassCurrentNote ;;
  fb <- scale_lookup bas ;;
  emit (Tone BUZZZER_PIN_2 fb).

(* ------------------------------------------------------------------ *)
(** ** The stages of the selectors, named

    Each definition below repeats a group of lines of a selector, so that
    statements can speak about the value between two stages.  The lemmas
    [defineNoteDuration_bands], [defineMelodyNote_stages] and
    [defineBassNote_stages] show that the selectors are the composition of
    their stages. *)

(** The three branches of [defineNoteDuration]. *)
Inductive band : Type := Slow | Medium | Fast.

Definition band_of (totalAcc : float) : band :=
  if (totalAcc >? lit_0_5)%fl && (totalAcc <? lit_0_75)%fl then Slow
  else if (totalAcc >? lit_0_75)%fl && (totalAcc <? int_3)%fl then Medium
  else Fast.

(** The bounds handed to [random] in each branch. *)
Definition band_lo (b : band) : Z :=
  match b with Slow => 18 | Medium => 10 | Fast => 0 end.

Definition band_hi (b : band) : Z :=
  match b with Slow => 19 | Medium => 18 | Fast => 10 end.

(** Lines 73-74 and 76-77 of [defineMelodyNote]. *)
Definition melody_octave_walk (totalAcc : float) (octave : Z) : Z :=
  let octave := if (totalAcc <? int_3)%fl then octave - 1 else octave in
  if (totalAcc >=? int_3)%fl then octave + 1 else octave.

Definition melody_octave_wrap (octave : Z) : Z :=
  let octave := if octave <? 0 then 5 else octave in
  if octave >? 5 then 2 else octave.

(** Lines 79-80, 82-83 and 85 of [defineMelodyNote]. *)
Definition melody_pitch_walk (totalSpin : float) (pitch : Z) : M Z :=
  pitch <- (if (totalSpin <? int_3)%fl
            then r <- random 0 6 ;; ret (pitch - r) else ret pitch) ;;
  if (totalSpin >? int_4)%fl
  then r <- random 0 6 ;; ret (pitch + r) else ret pitch.

Definition melody_pitch_clamp (pitch : Z) : Z :=
  let pitch := if pitch <? 0 then Z.abs pitch else pitch in
  while_gt6 pitch.

Definition silence_override (totalAcc totalSpin : float) (pitch : Z) : Z :=
  if (totalAcc <? lit_0_5)%fl || (totalSpin <? lit_0_5)%fl then 7 else pitch.

(** Lines 99-100 and 102-103 of [defineBassNote]. *)
Definition bass_octave_walk (totalSpin : float) (octave : Z) : Z :=
  let octave := if (totalSpin <? int_3)%fl then octave - 1 else octave in
  if (totalSpin >=? int_3)%fl then octave + 1 else octave.

Definition bass_octave_wrap (octave : Z) : Z :=
  let octave := if octave <? 0 then 2 else octave in
  if octave >? 5 then 0 else octave.

(** Line 105 of [defineBassNote]: the harmonics read. *)
Definition bass_pitch_pick (melodyPitch : Z) : M Z :=
  row <- index harmonics melodyPitch ;;
  c <- random 0 2 ;;
  index row c.

(** A voice state inside the ranges the scale table is indexed with. *)
Definition pitch_ok (n : note) : Prop := 0 <= pitch n <= 7.
Definition octave_ok (n : note) : Prop := 0 <= octave n <= 5.

Definition voices_ok (w : world) : Prop :=
  pitch_ok (melodyCurrentNote w) /\ octave_ok (melodyCurrentNote w) /\
  pitch_ok (bassCurrentNote w) /\ octave_ok (bassCurrentNote w).

(** The [playNote] calls of successive iterations of [loop], one for each
    pair of magnitudes read from the sensor. *)
Fixpoint play_cycles (readings : list (float * float)) : M unit :=
  match readings with
  | [] => ret tt
  | (totalAcc, totalSpin) :: rest =>
      playNote totalAcc totalSpin ;;; play_cycles rest
  end.

(** Two worlds that carry the same voices and the same upcoming draws;
    they may differ in how many draws were taken before and in what was
    sent out so far. *)
Definition same_inputs (w1 w2 : world) : Prop :=
  melodyCurrentNote w1 = melodyCurrentNote w2 /\
  bassCurrentNote w1 = bassCurrentNote w2 /\
  forall k : nat,
    entropy w1 (taken w1 + k)%nat = entropy w2 (taken w2 + k)%nat.

(** A computation whose result and voices depend on the voices and the
    upcoming draws only. *)
Definition deterministic {A} (c : M A) : Prop :=
  forall w1 w2, same_inputs w1 w2 ->
    match c w1, c w2 with
    | Some (a1, w1'), Some (a2, w2') => a1 = a2 /\ same_inputs w1' w2'
    | None, None => True
    | _, _ => False
    end.

(** The voices a run ends with. *)
Definition notes_of {A} (r : option (A * world)) : option (note * note) :=
  match r with
  | Some (_, w) => Some (melodyCurrentNote w, bassCurrentNote w)
  | None => None
  end.

Definition const_draws (r : N) : nat -> N := fun _ => r.

(** The raw draw that lies [k] places ahead in the random source: [draw w 0]
    is the next one. *)
Definition draw (w : world) (k : nat) : Z := Z.of_N (entropy w (taken w + k)%nat).

(* ------------------------------------------------------------------ *)
(** ** The polling loop *)

(** What [loop] asks of the board once [playNote] has returned. *)
Inductive action : Type :=
| Delay (ms : Z)
| NoTone (pin : Z).

(** [void loop()], from the call of [playNote] on, with the two planar
    magnitudes of the sample as inputs.  Reading the sample from the
    sensor is the caller's; [printMPUData] prints that raw sample and
    touches neither the voices nor the random source. *)
Definition loop (totalAcc totalSpin : float) : M (list action) :=
  playNote totalAcc totalSpin ;;;
  d <- gets (fun w => duration (melodyCurrentNote w)) ;;
  ret [Delay d; NoTone BUZZZER_PIN_1; NoTone BUZZZER_PIN_2].

(** Successive iterations of [loop], one for each pair of magnitudes. *)
Fixpoint loops (readings : list (float * float)) : M (list action) :=
  match readings with
  | [] => ret []
  | (totalAcc, totalSpin) :: rest =>
      first <- loop totalAcc totalSpin ;;
      others <- loops rest ;;
      ret (first ++ others)
  end.

(** The durations the melody is given in successive cycles, one for each
    pair of magnitudes: what [loop] hands to [delay], cycle after cycle. *)
Fixpoint melody_durations (readings : list (float * float)) : M (list Z) :=
  match readings with
  | [] => ret []
  | (totalAcc, totalSpin) :: rest =>
      playNote totalAcc totalSpin ;;;
      d <- gets (fun w => duration (melodyCurrentNote w)) ;;
      ds <- melody_durations rest ;;
      ret (d :: ds)
  end.

(** The largest [int] of the ESP32 the sketch is written for; the
    smallest is [- INT_MAX - 1], whose absolute value is not an [int]. *)
Definition INT_MAX : Z := 2147483647.

(** The time spent waiting in a sequence of actions, in milliseconds. *)
Fixpoint total_delay (l : list action) : Z :=
  match l with
  | [] => 0
  | Delay ms :: rest => ms + total_delay rest
  | NoTone _ :: rest => total_delay rest
  end.

(* ------------------------------------------------------------------ *)
(** ** Sanity checks on concrete runs *)

Example playNote_run_0 :
  notes_of (playNote f4_0 f5_0 (power_on (const_draws 0)))
  = Some (mkNote 0 4 125, mkNote 2 1 125).
Proof. reflexivity. Qed.

Example playNote_run_9 :
  notes_of (playNote f4_0 f5_0 (power_on (const_draws 9)))
  = Some (mkNote 3 4 250, mkNote 0 1 250).
Proof. reflexivity. Qed.

(** The literals and the sample inputs are binary64 values. *)
Example literals_are_doubles :
  forallb is_double
    [lit_0_5; lit_0_75; int_3; int_4; f0_2; f0_6; f2_0; f3_5; f4_0; f5_0]
  = true.
Proof. reflexivity. Qed.

(** Where the sample inputs fall. *)
Example sample_bands :
  map band_of [f0_2; f0_6; lit_0_5; lit_0_75; f2_0; int_3; f4_0; S754_nan]
  = [Fast; Slow; Fast; Fast; Medium; Fast; Fast; Fast].
Proof. reflexivity. Qed.

(* ------------------------------------------------------------------ *)
(** ** Order facts on floating-point values *)

Lemma SFcompare_antisym (x y : float) :
  SFcompare y x = option_map CompOpp (SFcompare x y).
Proof.
  destruct x as [sx|sx| |sx mx ex], y as [sy|sy| |sy my ey]; cbn;
    try reflexivity;
    try (destruct sx; reflexivity); try (destruct sy; reflexivity);
    try (destruct sx, sy; reflexivity).
  destruct sx, sy; cbn; try reflexivity;
    rewrite (Z.compare_antisym ex ey);
    destruct (ex ?= ey); cbn; try reflexivity;
    rewrite (Pos.compare_cont_antisym mx my Eq); cbn;
    try rewrite CompOpp_involutive; reflexivity.
Qed.

Lemma flt_asym (x y : float) : (x <? y)%fl = true -> (y <? x)%fl = false.
Proof.
  unfold flt, SFltb. rewrite (SFcompare_antisym x y).
  destruct (SFcompare x y) as [[| |]|]; cbn; congruence.
Qed.

Lemma fge_not_flt (x y : float) : (x >=? y)%fl = true -> (x <? y)%fl = false.
Proof.
  unfold fge, flt, SFleb, SFltb. rewrite (SFcompare_antisym y x).
  destruct (SFcompare y x) as [[| |]|]; cbn; congruence.
Qed.

Lemma flt_not_fge (x y : float) : (x <? y)%fl = true -> (x >=? y)%fl = false.
Proof.
  unfold fge, flt, SFleb, SFltb. rewrite (SFcompare_antisym x y).
  destruct (SFcompare x y) as [[| |]|]; cbn; congruence.
Qed.

(** A value that is at least 3 is not below 0.5. *)
Lemma fge_3_not_flt_half (x : float) :
  (x >=? int_3)%fl = true -> (x <? lit_0_5)%fl = false.
Proof.
  unfold fge, flt, SFleb, SFltb, int_3, lit_0_5.
  destruct x as [s|s| |s m e];
    try (try destruct s; cbv [SFcompare]; intros H;
         first [discriminate H | reflexivity]).
  destruct s; cbv [SFcompare]; [discriminate|].
    destruct (Z.compare_spec (-51) e), (Z.compare_spec e (-53));
      try lia; try discriminate; intros _; reflexivity.
Qed.

(* ------------------------------------------------------------------ *)
(** ** The primitives: array reads and the random source *)

Lemma index_in_bounds {A} (a : list A) (i : Z) (w : world) :
  0 <= i < Z.of_nat (length a) ->
  exists x, nth_error a (Z.to_nat i) = Some x /\ index a i w = Some (x, w).
Proof.
  intros Hi. unfold index.
  destruct (Z.ltb_spec i 0) as [Hneg|_]; [lia|].
  destruct (nth_error a (Z.to_nat i)) as [x|] eqn:E.
  - exists x. split; reflexivity.
  - apply nth_error_None in E. lia.
Qed.

(** A non-empty range costs one draw and yields a value inside it. *)
Lemma random_run (lo hi : Z) (w : world) :
  lo < hi ->
  random lo hi w = Some (lo + raw w mod (hi - lo), tick w) /\
  lo <= lo + raw w mod (hi - lo) < hi.
Proof.
  intros H. unfold random.
  destruct (Z.geb_spec lo hi) as [Hge|_]; [lia|].
  split; [reflexivity|].
  pose proof (Z.mod_pos_bound (raw w) (hi - lo)). lia.
Qed.

(** Every value of the range is produced by some raw draw. *)
Lemma random_onto (lo hi k : Z) (w : world) :
  lo <= k < hi -> raw w = k - lo -> random lo hi w = Some (k, tick w).
Proof.
  intros Hk Hraw. destruct (random_run lo hi w) as [-> _]; [lia|].
  rewrite Hraw, Z.mod_small by lia. do 2 f_equal. lia.
Qed.

(** The duration table, entry by entry. *)
Lemma noteDuration_values (n : nat) (d : Z) :
  nth_error noteDuration n = Some d ->
  ((n < 8)%nat -> d = 125) /\
  ((8 <= n < 12)%nat -> d = 250) /\
  ((12 <= n < 16)%nat -> d = 500) /\
  ((16 <= n < 19)%nat -> d = 1000) /\
  (n = 19%nat -> d = 1500).
Proof.
  intros H.
  do 20 (destruct n as [|n];
         [ inversion H; subst d; repeat split; intros; first [reflexivity | lia] | ]).
  destruct n; discriminate H.
Qed.

(* ------------------------------------------------------------------ *)
(** ** The selectors as the composition of their stages *)

Lemma defineNoteDuration_bands (totalAcc : float) :
  defineNoteDuration totalAcc =
  (i <- random (band_lo (band_of totalAcc)) (band_hi (band_of totalAcc)) ;;
   index noteDuration i).
Proof.
  unfold defineNoteDuration, band_of.
  destruct (_ && _); [reflexivity|]. destruct (_ && _); reflexivity.
Qed.

Lemma defineMelodyNote_stages (totalAcc totalSpin : float) (w : world) :
  defineMelodyNote totalAcc totalSpin w =
  (p <- melody_pitch_walk totalSpin (pitch (melodyCurrentNote w)) ;;
   modify (on_melody (fun n =>
     set_pitch n (silence_override totalAcc totalSpin (melody_pitch_clamp p)))) ;;;
   modify (on_melody (fun n =>
     set_octave n (melody_octave_wrap
                     (melody_octave_walk totalAcc (octave (melodyCurrentNote w)))))) ;;;
   d <- defineNoteDuration totalAcc ;;
   modify (on_melody (fun n => set_duration n d))) w.
Proof.
  unfold defineMelodyNote, melody_pitch_walk, silence_override,
    melody_pitch_clamp, melody_octave_wrap, melody_octave_walk, bind, gets.
  destruct (totalSpin <? int_3)%fl, (totalSpin >? int_4)%fl; reflexivity.
Qed.

Lemma defineBassNote_stages (totalAcc totalSpin : float) (w : world) :
  defineBassNote totalAcc totalSpin w =
  (p <- bass_pitch_pick (pitch (melodyCurrentNote w)) ;;
   modify (on_bass (fun n => set_pitch n p)) ;;;
   modify (on_bass (fun n =>
     set_octave n (bass_octave_wrap
                     (bass_octave_walk totalSpin (octave (bassCurrentNote w)))))) ;;;
   d <- defineNoteDuration totalAcc ;;
   modify (on_bass (fun n => set_duration n d))) w.
Proof.
  unfold defineBassNote, bass_pitch_pick, bass_octave_wrap, bass_octave_walk,
    bind, gets.
  destruct (index harmonics (pitch (melodyCurrentNote w)) w) as [[row w1]|];
    [|reflexivity].
  destruct (random 0 2 w1) as [[c w2]|]; reflexivity.
Qed.

(* ------------------------------------------------------------------ *)
(** ** What each stage computes *)

(** The duration selector always returns: it takes one draw, reduces it
    into the range of its band and reads the table there. *)
Lemma defineNoteDuration_run (totalAcc : float) (w : world) :
  exists i d,
    i = band_lo (band_of totalAcc)
        + raw w mod (band_hi (band_of totalAcc) - band_lo (band_of totalAcc)) /\
    band_lo (band_of totalAcc) <= i < band_hi (band_of totalAcc) /\
    nth_error noteDuration (Z.to_nat i) = Some d /\
    defineNoteDuration totalAcc w = Some (d, tick w).
Proof.
  rewrite defineNoteDuration_bands. unfold bind.
  set (b := band_of totalAcc).
  assert (Hb : band_lo b < band_hi b /\ 0 <= band_lo b /\ band_hi b <= 19)
    by (destruct b; cbn; lia).
  destruct (random_run (band_lo b) (band_hi b) w) as [-> Hr]; [lia|].
  set (i := band_lo b + raw w mod (band_hi b - band_lo b)) in *.
  destruct (index_in_bounds noteDuration i (tick w)) as (d & Hd & ->).
  { change (Z.of_nat (length noteDuration)) with 20. lia. }
  exists i, d. auto.
Qed.

(** The loop [while (pitch > 6) pitch -= 3], one iteration at a time. *)
Lemma while_gt6_step (p : Z) :
  while_gt6 p = if p >? 6 then while_gt6 (p - 3) else p.
Proof.
  rewrite while_gt6_equation_1. unfold while_gt6_unfold_clause_1.
  destruct (Z_gt_dec p 6) as [H|H]; destruct (Z.gtb_spec p 6); try lia; reflexivity.
Qed.

Lemma while_gt6_range (p : Z) :
  while_gt6 p <= 6 /\ (p <= 6 -> while_gt6 p = p) /\ (6 < p -> 4 <= while_gt6 p).
Proof.
  funelim (while_gt6 p); lia.
Qed.

Lemma melody_pitch_clamp_range (p : Z) : 0 <= melody_pitch_clamp p <= 6.
Proof.
  unfold melody_pitch_clamp.
  destruct (Z.ltb_spec p 0) as [Hneg|Hpos].
  - pose proof (while_gt6_range (Z.abs p)). lia.
  - pose proof (while_gt6_range p). lia.
Qed.

Lemma silence_override_range (totalAcc totalSpin : float) (p : Z) :
  0 <= p <= 6 -> 0 <= silence_override totalAcc totalSpin p <= 7.
Proof. unfold silence_override. destruct (_ || _); lia. Qed.

Lemma melody_octave_wrap_range (o : Z) : 0 <= melody_octave_wrap o <= 5.
Proof.
  unfold melody_octave_wrap.
  destruct (Z.ltb_spec o 0); cbn; [lia|]. destruct (Z.gtb_spec o 5); lia.
Qed.

Lemma bass_octave_wrap_range (o : Z) : 0 <= bass_octave_wrap o <= 5.
Proof.
  unfold bass_octave_wrap.
  destruct (Z.ltb_spec o 0); cbn; [lia|]. destruct (Z.gtb_spec o 5); lia.
Qed.

(** The walk moves the octave by at most one step. *)
Lemma melody_octave_walk_step (totalAcc : float) (o : Z) :
  o - 1 <= melody_octave_walk totalAcc o <= o + 1.
Proof.
  unfold melody_octave_walk.
  destruct (totalAcc <? int_3)%fl eqn:E.
  - rewrite (flt_not_fge _ _ E). lia.
  - destruct (totalAcc >=? int_3)%fl; lia.
Qed.

Lemma bass_octave_walk_step (totalSpin : float) (o : Z) :
  o - 1 <= bass_octave_walk totalSpin o <= o + 1.
Proof.
  unfold bass_octave_walk.
  destruct (totalSpin <? int_3)%fl eqn:E.
  - rewrite (flt_not_fge _ _ E). lia.
  - destruct (totalSpin >=? int_3)%fl; lia.
Qed.

(** The two branches of the pitch walk exclude each other. *)
Lemma flt_3_not_fgt_4 (x : float) :
  (x <? int_3)%fl = true -> (x >? int_4)%fl = false.
Proof.
  unfold fgt, flt, SFltb, int_3, int_4.
  destruct x as [s|s| |s m e];
    try (try destruct s; cbv [SFcompare]; intros H;
         first [discriminate H | reflexivity]).
  destruct s; cbv [SFcompare]; [intros _; reflexivity|].
  destruct (Z.compare_spec e (-51)), (Z.compare_spec (-50) e);
    try lia; try discriminate; intros _; reflexivity.
Qed.

(** The pitch walk always returns, leaves the voices alone and moves the
    pitch by less than six either way, on at most one draw. *)
Lemma melody_pitch_walk_run (totalSpin : float) (p : Z) (w : world) :
  exists p1 w1,
    melody_pitch_walk totalSpin p w = Some (p1, w1) /\
    melodyCurrentNote w1 = melodyCurrentNote w /\
    bassCurrentNote w1 = bassCurrentNote w /\
    p - 5 <= p1 <= p + 5 /\
    (w1 = w \/ w1 = tick w).
Proof.
  unfold melody_pitch_walk, bind, ret.
  destruct (totalSpin <? int_3)%fl eqn:E.
  - rewrite (flt_3_not_fgt_4 _ E).
    destruct (random_run 0 6 w) as [-> Hr]; [lia|].
    eexists _, _. split; [reflexivity|]. repeat split; try reflexivity; try lia. auto.
  - destruct (totalSpin >? int_4)%fl.
    + destruct (random_run 0 6 w) as [-> Hr]; [lia|].
      eexists _, _. split; [reflexivity|]. repeat split; try reflexivity; try lia. auto.
    + eexists _, _. split; [reflexivity|]. repeat split; try lia. auto.
Qed.

(** Every row of the harmonics table has three entries, all of them valid
    pitch indices. *)
Lemma harmonics_rows (n : nat) (row : list Z) :
  nth_error harmonics n = Some row ->
  length row = 3%nat /\ Forall (fun p => 0 <= p <= 7) row.
Proof.
  intros H.
  do 8 (destruct n as [|n];
        [ inversion H; split; [reflexivity | repeat constructor; lia] | ]).
  destruct n; discriminate H.
Qed.

(** The harmonics read returns for every melody pitch from 0 to 7: it
    takes one draw, reduces it to a column 0 or 1 and reads the row of
    the melody pitch there. *)
Lemma bass_pitch_pick_run (m : Z) (w : world) :
  0 <= m <= 7 ->
  exists row c p,
    nth_error harmonics (Z.to_nat m) = Some row /\
    c = raw w mod 2 /\ 0 <= c < 2 /\
    nth_error row (Z.to_nat c) = Some p /\
    0 <= p <= 7 /\
    bass_pitch_pick m w = Some (p, tick w).
Proof.
  intros Hm. unfold bass_pitch_pick, bind.
  destruct (index_in_bounds harmonics m w) as (row & Hrow & ->).
  { change (Z.of_nat (length harmonics)) with 8. lia. }
  destruct (harmonics_rows _ _ Hrow) as [Hlen Hall].
  destruct (random_run 0 2 w) as [-> Hr]; [lia|].
  change (2 - 0) with 2 in *. rewrite Z.add_0_l in *.
  destruct (index_in_bounds row (raw w mod 2) (tick w)) as (p & Hp & ->).
  { rewrite Hlen. lia. }
  exists row, (raw w mod 2), p. repeat split; try assumption; try lia.
  - apply nth_error_In in Hp. rewrite Forall_forall in Hall.
    apply (Hall p Hp).
  - apply nth_error_In in Hp. rewrite Forall_forall in Hall.
    apply (Hall p Hp).
Qed.

(** The melody selector always returns; its effect on the world. *)
Lemma defineMelodyNote_run (totalAcc totalSpin : float) (w : world) :
  exists p1 w1 i d w',
    melody_pitch_walk totalSpin (pitch (melodyCurrentNote w)) w = Some (p1, w1) /\
    pitch (melodyCurrentNote w) - 5 <= p1 <= pitch (melodyCurrentNote w) + 5 /\
    i = band_lo (band_of totalAcc)
        + raw w1 mod (band_hi (band_of totalAcc) - band_lo (band_of totalAcc)) /\
    band_lo (band_of totalAcc) <= i < band_hi (band_of totalAcc) /\
    nth_error noteDuration (Z.to_nat i) = Some d /\
    defineMelodyNote totalAcc totalSpin w = Some (tt, w') /\
    melodyCurrentNote w' =
      mkNote (silence_override totalAcc totalSpin (melody_pitch_clamp p1))
             (melody_octave_wrap
                (melody_octave_walk totalAcc (octave (melodyCurrentNote w))))
             d /\
    bassCurrentNote w' = bassCurrentNote w /\
    entropy w' = entropy w /\ taken w' = S (taken w1) /\
    output w' = output w.
Proof.
  rewrite defineMelodyNote_stages. unfold bind.
  destruct (melody_pitch_walk_run totalSpin (pitch (melodyCurrentNote w)) w)
    as (p1 & w1 & -> & Hm & Hb & Hp & Hw).
  unfold modify.
  match goal with
  | |- context [defineNoteDuration ?a ?W] =>
      destruct (defineNoteDuration_run a W) as (i & d & Hi & Hr & Hd & ->)
  end.
  exists p1, w1, i, d. eexists. split; [reflexivity|].
  repeat split; try assumption; try lia.
  - destruct Hw; subst w1; reflexivity.
  - destruct Hw; subst w1; reflexivity.
Qed.

(** The bass selector returns whenever the melody pitch is a valid index;
    its effect on the world. *)
Lemma defineBassNote_run (totalAcc totalSpin : float) (w : world) :
  pitch_ok (melodyCurrentNote w) ->
  exists row c p i d w',
    nth_error harmonics (Z.to_nat (pitch (melodyCurrentNote w))) = Some row /\
    c = raw w mod 2 /\ 0 <= c < 2 /\
    nth_error row (Z.to_nat c) = Some p /\
    0 <= p <= 7 /\
    i = band_lo (band_of totalAcc)
        + raw (tick w) mod (band_hi (band_of totalAcc) - band_lo (band_of totalAcc)) /\
    band_lo (band_of totalAcc) <= i < band_hi (band_of totalAcc) /\
    nth_error noteDuration (Z.to_nat i) = Some d /\
    defineBassNote totalAcc totalSpin w = Some (tt, w') /\
    bassCurrentNote w' =
      mkNote p
             (bass_octave_wrap
                (bass_octave_walk totalSpin (octave (bassCurrentNote w))))
             d /\
    melodyCurrentNote w' = melodyCurrentNote w /\
    entropy w' = entropy w /\ taken w' = S (S (taken w)) /\
    output w' = output w.
Proof.
  intros Hok. rewrite defineBassNote_stages. unfold bind.
  destruct (bass_pitch_pick_run (pitch (melodyCurrentNote w)) w Hok)
    as (row & c & p & Hrow & Hc & Hcr & Hp & Hpr & ->).
  unfold modify.
  match goal with
  | |- context [defineNoteDuration ?a ?W] =>
      destruct (defineNoteDuration_run a W) as (i & d & Hi & Hr & Hd & ->)
  end.
  exists row, c, p, i, d. eexists.
  repeat split; try eassumption; try lia.
Qed.

(* ------------------------------------------------------------------ *)
(** ** The duration selector *)

Lemma band_of_slow (totalAcc : float) :
  (totalAcc >? lit_0_5)%fl = true -> (totalAcc <? lit_0_75)%fl = true ->
  band_of totalAcc = Slow.
Proof. intros H1 H2. unfold band_of. rewrite H1, H2. reflexivity. Qed.

Lemma band_of_medium (totalAcc : float) :
  (totalAcc >? lit_0_75)%fl = true -> (totalAcc <? int_3)%fl = true ->
  band_of totalAcc = Medium.
Proof.
  intros H1 H2. unfold band_of. rewrite H1, H2.
  unfold fgt in H1. rewrite (flt_asym _ _ H1), andb_false_r. reflexivity.
Qed.

(** Claim C2, as the code has it: for every [totalAcc] with
    [0.5 < totalAcc < 0.75] the duration selector calls [random(18, 19)],
    which always yields index 18, and returns the table entry there, which
    is 1000 milliseconds (1500 sits at index 19 only). *)
Theorem defineNoteDuration_slow_band (totalAcc : float) (w : world) :
  (totalAcc >? lit_0_5)%fl = true -> (totalAcc <? lit_0_75)%fl = true ->
  defineNoteDuration totalAcc w = (i <- random 18 19 ;; index noteDuration i) w /\
  random 18 19 w = Some (18, tick w) /\
  nth_error noteDuration 18 = Some 1000 /\
  nth_error noteDuration 19 = Some 1500 /\
  defineNoteDuration totalAcc w = Some (1000, tick w).
Proof.
  intros H1 H2. pose proof (band_of_slow _ H1 H2) as Hb.
  split; [rewrite defineNoteDuration_bands, Hb; reflexivity|].
  split; [destruct (random_run 18 19 w) as [-> _]; [lia|];
          change (19 - 18) with 1; rewrite Z.mod_1_r; reflexivity |].
  do 2 (split; [reflexivity|]).
  destruct (defineNoteDuration_run totalAcc w) as (i & d & Hi & Hr & Hd & ->).
  rewrite Hb in Hi. cbn [band_lo band_hi] in Hi.
  change (19 - 18) with 1 in Hi. rewrite Z.mod_1_r in Hi. subst i.
  change (Z.to_nat (18 + 0)) with 18%nat in Hd.
  cbn [nth_error noteDuration] in Hd. inversion Hd. reflexivity.
Qed.

Lemma defineNoteDuration_slow_band_witness :
  (f0_6 >? lit_0_5)%fl = true /\ (f0_6 <? lit_0_75)%fl = true /\
  defineNoteDuration f0_6 (power_on (const_draws 7))
  = Some (1000, tick (power_on (const_draws 7))).
Proof.
  split; [reflexivity|]. split; [reflexivity|].
  apply (defineNoteDuration_slow_band f0_6 (power_on (const_draws 7)));
    reflexivity.
Defined.

(** Claim C2 as written fails: at [totalAcc = 0.6] the selector returns
    1000, not 1500, whatever is drawn. *)
Lemma defineNoteDuration_slow_band_not_1500 :
  option_map fst (defineNoteDuration f0_6 (power_on (const_draws 0))) = Some 1000 /\
  ~ (forall (totalAcc : float) (w : world),
       (totalAcc >? lit_0_5)%fl = true -> (totalAcc <? lit_0_75)%fl = true ->
       option_map fst (defineNoteDuration totalAcc w) = Some 1500).
Proof.
  split; [reflexivity|]. intros H.
  specialize (H f0_6 (power_on (const_draws 0)) eq_refl eq_refl).
  vm_compute in H. discriminate H.
Qed.

(** Claim C3, as the code has it: for every [totalAcc] with
    [0.75 < totalAcc < 3] the duration selector reads the table at
    [10 + raw mod 8], an index from 10 to 17, and every such index is
    drawn by some raw value; the duration is 250 at indices 10 and 11, 500
    at 12 to 15 and 1000 at 16 and 17. *)
Theorem defineNoteDuration_medium_band (totalAcc : float) (w : world) :
  (totalAcc >? lit_0_75)%fl = true -> (totalAcc <? int_3)%fl = true ->
  defineNoteDuration totalAcc w = (i <- random 10 18 ;; index noteDuration i) w /\
  (forall k, 10 <= k < 18 -> raw w = k - 10 -> random 10 18 w = Some (k, tick w)) /\
  exists i d,
    i = 10 + raw w mod 8 /\ 10 <= i < 18 /\
    nth_error noteDuration (Z.to_nat i) = Some d /\
    defineNoteDuration totalAcc w = Some (d, tick w) /\
    (d = 250 \/ d = 500 \/ d = 1000) /\
    (i < 12 -> d = 250) /\ (12 <= i < 16 -> d = 500) /\ (16 <= i -> d = 1000).
Proof.
  intros H1 H2. pose proof (band_of_medium _ H1 H2) as Hb.
  split; [rewrite defineNoteDuration_bands, Hb; reflexivity|].
  split; [intros k Hk Hraw; apply random_onto; assumption|].
  destruct (defineNoteDuration_run totalAcc w) as (i & d & Hi & Hr & Hd & Hrun).
  rewrite Hb in Hi, Hr. cbn [band_lo band_hi] in Hi, Hr.
  change (18 - 10) with 8 in Hi.
  exists i, d. repeat split; try assumption; try lia;
    destruct (noteDuration_values _ _ Hd) as (V1 & V2 & V3 & V4 & V5).
  - destruct (Z_lt_dec i 12); [left; apply V2; lia|].
    destruct (Z_lt_dec i 16); [right; left; apply V3; lia|].
    right; right; apply V4; lia.
  - intros. apply V2; lia.
  - intros. apply V3; lia.
  - intros. apply V4; lia.
Qed.

Lemma defineNoteDuration_medium_band_witness :
  (f2_0 >? lit_0_75)%fl = true /\ (f2_0 <? int_3)%fl = true /\
  exists i d,
    i = 10 + raw (power_on (const_draws 13)) mod 8 /\ 10 <= i < 18 /\
    defineNoteDuration f2_0 (power_on (const_draws 13))
    = Some (d, tick (power_on (const_draws 13))) /\
    (d = 250 \/ d = 500 \/ d = 1000).
Proof.
  split; [reflexivity|]. split; [reflexivity|].
  destruct (defineNoteDuration_medium_band f2_0 (power_on (const_draws 13))
              eq_refl eq_refl)
    as (_ & _ & i & d & Hi & Hr & _ & Hrun & Hd & _).
  exists i, d. auto.
Defined.

(** Claim C3 as written fails: at [totalAcc = 2.0] and a raw draw of 0 the
    selector reads index 10 and returns 250, which is neither 500 nor
    1000. *)
Lemma defineNoteDuration_medium_band_250 :
  random 10 18 (power_on (const_draws 0)) = Some (10, tick (power_on (const_draws 0))) /\
  option_map fst (defineNoteDuration f2_0 (power_on (const_draws 0))) = Some 250 /\
  ~ (forall (totalAcc : float) (w : world),
       (totalAcc >? lit_0_75)%fl = true -> (totalAcc <? int_3)%fl = true ->
       option_map fst (defineNoteDuration totalAcc w) = Some 500 \/
       option_map fst (defineNoteDuration totalAcc w) = Some 1000).
Proof.
  split; [reflexivity|]. split; [reflexivity|]. intros H.
  specialize (H f2_0 (power_on (const_draws 0)) eq_refl eq_refl).
  vm_compute in H. destruct H as [H|H]; discriminate H.
Qed.

(** Claim C4: for every [totalAcc] and every draw the duration selector
    returns 125, 250, 500 or 1000 milliseconds.  The ranges handed to
    [random] are [18,19), [10,18) and [0,10); the index read is below 19,
    so the 1500 of index 19 is never returned. *)
Theorem defineNoteDuration_never_1500 (totalAcc : float) (w : world) :
  ((band_lo (band_of totalAcc), band_hi (band_of totalAcc)) = (18, 19) \/
   (band_lo (band_of totalAcc), band_hi (band_of totalAcc)) = (10, 18) \/
   (band_lo (band_of totalAcc), band_hi (band_of totalAcc)) = (0, 10)) /\
  exists i d,
    0 <= i < 19 /\
    nth_error noteDuration (Z.to_nat i) = Some d /\
    defineNoteDuration totalAcc w = Some (d, tick w) /\
    (d = 125 \/ d = 250 \/ d = 500 \/ d = 1000) /\
    d <> 1500.
Proof.
  split; [destruct (band_of totalAcc); cbn; auto|].
  destruct (defineNoteDuration_run totalAcc w) as (i & d & Hi & Hr & Hd & Hrun).
  assert (Hi19 : 0 <= i < 19) by (destruct (band_of totalAcc); cbn in Hr; lia).
  exists i, d. repeat split; try assumption; try lia;
    destruct (noteDuration_values _ _ Hd) as (V1 & V2 & V3 & V4 & V5).
  - destruct (Z_lt_dec i 8); [left; apply V1; lia|].
    destruct (Z_lt_dec i 12); [right; left; apply V2; lia|].
    destruct (Z_lt_dec i 16); [right; right; left; apply V3; lia|].
    right; right; right; apply V4; lia.
  - destruct (Z_lt_dec i 8); [rewrite V1; lia|].
    destruct (Z_lt_dec i 12); [rewrite V2; lia|].
    destruct (Z_lt_dec i 16); [rewrite V3; lia|].
    rewrite V4; lia.
Qed.

(* ------------------------------------------------------------------ *)
(** ** The melody selector *)

(** Claim C5: from octaves between 0 and 5 both octave walks end between
    0 and 5, for every magnitude and every draw.  The walk moves the octave
    by at most one step; the melody wrap sends -1 to 5 and 6 to 2, the bass
    wrap sends -1 to 2 and 6 to 0. *)
Theorem octave_walks_stay_in_range (totalAcc totalSpin : float) (w : world) :
  octave_ok (melodyCurrentNote w) -> octave_ok (bassCurrentNote w) ->
  exists w1 w2,
    defineMelodyNote totalAcc totalSpin w = Some (tt, w1) /\
    defineBassNote totalAcc totalSpin w1 = Some (tt, w2) /\
    -1 <= melody_octave_walk totalAcc (octave (melodyCurrentNote w)) <= 6 /\
    octave (melodyCurrentNote w1)
    = melody_octave_wrap (melody_octave_walk totalAcc (octave (melodyCurrentNote w))) /\
    octave_ok (melodyCurrentNote w1) /\
    -1 <= bass_octave_walk totalSpin (octave (bassCurrentNote w)) <= 6 /\
    octave (bassCurrentNote w2)
    = bass_octave_wrap (bass_octave_walk totalSpin (octave (bassCurrentNote w))) /\
    octave_ok (bassCurrentNote w2) /\
    octave_ok (melodyCurrentNote w2) /\
    (melody_octave_wrap (-1) = 5 /\ melody_octave_wrap 6 = 2) /\
    (bass_octave_wrap (-1) = 2 /\ bass_octave_wrap 6 = 0) /\
    (forall o, 0 <= o <= 5 -> melody_octave_wrap o = o /\ bass_octave_wrap o = o).
Proof.
  unfold octave_ok. intros Hm Hb.
  destruct (defineMelodyNote_run totalAcc totalSpin w)
    as (p1 & w0 & i & d & w1 & _ & _ & _ & _ & _ & Hrun & Hmel & Hbass & _).
  assert (Hok : pitch_ok (melodyCurrentNote w1)).
  { unfold pitch_ok. rewrite Hmel. cbn [pitch].
    apply silence_override_range, melody_pitch_clamp_range. }
  destruct (defineBassNote_run totalAcc totalSpin w1 Hok)
    as (row & c & p & i' & d' & w2 & _ & _ & _ & _ & _ & _ & _ & _
        & Hrun' & Hbass' & Hmel' & _).
  exists w1, w2.
  pose proof (melody_octave_walk_step totalAcc (octave (melodyCurrentNote w))).
  pose proof (bass_octave_walk_step totalSpin (octave (bassCurrentNote w))).
  rewrite Hmel', Hbass', Hmel, Hbass. cbn [octave].
  repeat split; try assumption; try lia;
    try apply melody_octave_wrap_range; try apply bass_octave_wrap_range.
  - unfold melody_octave_wrap.
    destruct (Z.ltb_spec o 0); [lia|]. destruct (Z.gtb_spec o 5); lia.
  - unfold bass_octave_wrap.
    destruct (Z.ltb_spec o 0); [lia|]. destruct (Z.gtb_spec o 5); lia.
Qed.

Lemma octave_walks_stay_in_range_witness :
  octave_ok (melodyCurrentNote (power_on (const_draws 4))) /\
  octave_ok (bassCurrentNote (power_on (const_draws 4))) /\
  exists w1 w2,
    defineMelodyNote f2_0 f2_0 (power_on (const_draws 4)) = Some (tt, w1) /\
    defineBassNote f2_0 f2_0 w1 = Some (tt, w2) /\
    octave_ok (melodyCurrentNote w1) /\ octave_ok (bassCurrentNote w2).
Proof.
  assert (Hm : octave_ok (melodyCurrentNote (power_on (const_draws 4))))
    by (unfold octave_ok; cbn; lia).
  assert (Hb : octave_ok (bassCurrentNote (power_on (const_draws 4))))
    by (unfold octave_ok; cbn; lia).
  split; [exact Hm|]. split; [exact Hb|].
  destruct (octave_walks_stay_in_range f2_0 f2_0 (power_on (const_draws 4)) Hm Hb)
    as (w1 & w2 & H1 & H2 & _ & _ & Ho1 & _ & _ & Ho2 & _).
  exists w1, w2. auto.
Defined.

(** At power-on the bass octave is 0: a slow spin takes it to -1, which
    the bass wrap sends to 2, where the melody wrap would send it to 5. *)
Example bass_wraps_below_zero :
  notes_of (defineBassNote f2_0 f2_0 (power_on (const_draws 4)))
  = Some (mkNote 0 3 0, mkNote 2 2 500).
Proof. reflexivity. Qed.

(** Claim C6: from a melody pitch between 0 and 7, for every magnitude and
    every draw, the pitch after the clamp (absolute value of a negative
    pitch, then 3 off while above 6) is between 0 and 6, and the pitch the
    selector stores, after the silence override, is between 0 and 7. *)
Theorem melody_pitch_stays_in_range (totalAcc totalSpin : float) (w : world) :
  pitch_ok (melodyCurrentNote w) ->
  exists p1 w1 w',
    melody_pitch_walk totalSpin (pitch (melodyCurrentNote w)) w = Some (p1, w1) /\
    -5 <= p1 <= 12 /\
    0 <= melody_pitch_clamp p1 <= 6 /\
    defineMelodyNote totalAcc totalSpin w = Some (tt, w') /\
    pitch (melodyCurrentNote w')
    = silence_override totalAcc totalSpin (melody_pitch_clamp p1) /\
    pitch_ok (melodyCurrentNote w').
Proof.
  unfold pitch_ok. intros Hp.
  destruct (defineMelodyNote_run totalAcc totalSpin w)
    as (p1 & w1 & i & d & w' & Hwalk & Hp1 & _ & _ & _ & Hrun & Hmel & _).
  exists p1, w1, w'. rewrite Hmel. cbn [pitch].
  pose proof (melody_pitch_clamp_range p1) as Hc.
  pose proof (silence_override_range totalAcc totalSpin _ Hc).
  repeat split; try assumption; lia.
Qed.

Lemma melody_pitch_stays_in_range_witness :
  pitch_ok (melodyCurrentNote (power_on (const_draws 4))) /\
  exists p1 w',
    0 <= melody_pitch_clamp p1 <= 6 /\
    defineMelodyNote f4_0 f5_0 (power_on (const_draws 4)) = Some (tt, w') /\
    pitch_ok (melodyCurrentNote w').
Proof.
  assert (Hp : pitch_ok (melodyCurrentNote (power_on (const_draws 4))))
    by (unfold pitch_ok; cbn; lia).
  split; [exact Hp|].
  destruct (melody_pitch_stays_in_range f4_0 f5_0 (power_on (const_draws 4)) Hp)
    as (p1 & w1 & w' & _ & _ & Hc & Hrun & _ & Hok).
  exists p1, w'. auto.
Defined.

(** The clamp on the values the walk can hand over. *)
Example melody_pitch_clamp_values :
  map melody_pitch_clamp [-5; -1; 0; 6; 7; 8; 9; 10; 11; 12]
  = [5; 1; 0; 6; 4; 5; 6; 4; 5; 6].
Proof. reflexivity. Qed.

(** Claim C7: whenever [totalAcc < 0.5] or [totalSpin < 0.5] the melody
    selector stores pitch 7, whatever the walk and the clamp produced. *)
Theorem silence_forces_pitch_7 (totalAcc totalSpin : float) (w : world) :
  (totalAcc <? lit_0_5)%fl = true \/ (totalSpin <? lit_0_5)%fl = true ->
  exists w',
    defineMelodyNote totalAcc totalSpin w = Some (tt, w') /\
    pitch (melodyCurrentNote w') = 7.
Proof.
  intros Hs.
  destruct (defineMelodyNote_run totalAcc totalSpin w)
    as (p1 & w1 & i & d & w' & _ & _ & _ & _ & _ & Hrun & Hmel & _).
  exists w'. split; [assumption|]. rewrite Hmel. cbn [pitch].
  unfold silence_override.
  destruct Hs as [-> | ->]; [reflexivity | rewrite orb_true_r; reflexivity].
Qed.

Lemma silence_forces_pitch_7_witness :
  ((f0_2 <? lit_0_5)%fl = true \/ (f5_0 <? lit_0_5)%fl = true) /\
  exists w',
    defineMelodyNote f0_2 f5_0 (power_on (const_draws 4)) = Some (tt, w') /\
    pitch (melodyCurrentNote w') = 7.
Proof.
  split; [left; reflexivity|].
  apply (silence_forces_pitch_7 f0_2 f5_0 (power_on (const_draws 4))).
  left; reflexivity.
Defined.

(** Claim C9: from the silence pitch 7, with [3 <= totalSpin <= 4] (so
    that [totalSpin >= 0.5] as well) and [totalAcc >= 0.5], neither branch of the pitch walk fires and no draw
    is taken for it, yet the selector stores pitch 4: the loop of the
    clamp takes 3 off the untouched 7. *)
Theorem silence_pitch_folds_to_4 (totalAcc totalSpin : float) (w : world) :
  pitch (melodyCurrentNote w) = 7 ->
  (totalSpin >=? int_3)%fl = true -> (int_4 >=? totalSpin)%fl = true ->
  (totalAcc >=? lit_0_5)%fl = true ->
  exists w',
    melody_pitch_walk totalSpin 7 w = Some (7, w) /\
    melody_pitch_clamp 7 = 4 /\
    silence_override totalAcc totalSpin 4 = 4 /\
    defineMelodyNote totalAcc totalSpin w = Some (tt, w') /\
    pitch (melodyCurrentNote w') = 4.
Proof.
  intros Hp H3 H4 Hacc.
  assert (Hwalk : melody_pitch_walk totalSpin 7 w = Some (7, w)).
  { unfold melody_pitch_walk, bind, ret.
    rewrite (fge_not_flt _ _ H3).
    change (totalSpin >? int_4)%fl with (int_4 <? totalSpin)%fl.
    rewrite (fge_not_flt _ _ H4). reflexivity. }
  assert (Hsil : forall p, silence_override totalAcc totalSpin p = p).
  { intros p. unfold silence_override.
    rewrite (fge_not_flt _ _ Hacc), (fge_3_not_flt_half _ H3). reflexivity. }
  destruct (defineMelodyNote_run totalAcc totalSpin w)
    as (p1 & w1 & i & d & w' & Hwalk' & _ & _ & _ & _ & Hrun & Hmel & _).
  rewrite Hp, Hwalk in Hwalk'. inversion Hwalk'; subst p1 w1.
  exists w'. rewrite Hmel, Hsil. cbn [pitch]. rewrite Hsil.
  repeat split; try assumption; reflexivity.
Qed.

Lemma silence_pitch_folds_to_4_witness :
  (f3_5 >=? int_3)%fl = true /\ (int_4 >=? f3_5)%fl = true /\
  (f4_0 >=? lit_0_5)%fl = true /\
  exists w',
    defineMelodyNote f4_0 f3_5
      (on_melody (fun n => set_pitch n 7) (power_on (const_draws 4)))
    = Some (tt, w') /\
    pitch (melodyCurrentNote w') = 4.
Proof.
  do 3 (split; [reflexivity|]).
  destruct (silence_pitch_folds_to_4 f4_0 f3_5
              (on_melody (fun n => set_pitch n 7) (power_on (const_draws 4)))
              eq_refl eq_refl eq_refl eq_refl)
    as (w' & _ & _ & _ & Hrun & Hp).
  exists w'. auto.
Defined.

(* ------------------------------------------------------------------ *)
(** ** The bass selector *)

(** Claim C1, on the code: for every melody pitch from 0 to 7 the bass
    selector reads the row of that pitch at column [raw mod 2], which is 0
    or 1: the third candidate of the row is never read.  With melody pitch
    0 the row is [2; 4; 6] and the bass pitch is 2 or 4, never 6, whatever
    is drawn. *)
Theorem bass_pitch_never_third_candidate (totalAcc totalSpin : float) (w : world) :
  pitch_ok (melodyCurrentNote w) ->
  exists row c w',
    nth_error harmonics (Z.to_nat (pitch (melodyCurrentNote w))) = Some row /\
    c = raw w mod 2 /\ 0 <= c < 2 /\
    defineBassNote totalAcc totalSpin w = Some (tt, w') /\
    nth_error row (Z.to_nat c) = Some (pitch (bassCurrentNote w')) /\
    (pitch (melodyCurrentNote w) = 0 ->
     row = [2; 4; 6] /\
     (pitch (bassCurrentNote w') = 2 \/ pitch (bassCurrentNote w') = 4) /\
     pitch (bassCurrentNote w') <> 6).
Proof.
  intros Hok.
  destruct (defineBassNote_run totalAcc totalSpin w Hok)
    as (row & c & p & i & d & w' & Hrow & Hc & Hcr & Hpc & _ & _ & _ & _
        & Hrun & Hbass & _).
  exists row, c, w'. rewrite Hbass. cbn [pitch].
  repeat split; try assumption; try lia;
    rewrite H in Hrow; cbn in Hrow; inversion Hrow; subst row;
    try reflexivity;
    assert (Hcase : c = 0 \/ c = 1) by lia;
    destruct Hcase as [E|E]; rewrite E in Hpc; cbn in Hpc; inversion Hpc;
    auto; lia.
Qed.

Lemma bass_pitch_never_third_candidate_witness :
  pitch_ok (melodyCurrentNote (power_on (const_draws 2))) /\
  exists w',
    defineBassNote f4_0 f5_0 (power_on (const_draws 2)) = Some (tt, w') /\
    pitch (bassCurrentNote w') <> 6.
Proof.
  assert (Hok : pitch_ok (melodyCurrentNote (power_on (const_draws 2))))
    by (unfold pitch_ok; cbn; lia).
  split; [exact Hok|].
  destruct (bass_pitch_never_third_candidate f4_0 f5_0
              (power_on (const_draws 2)) Hok)
    as (row & c & w' & _ & _ & _ & Hrun & _ & Hp).
  exists w'. split; [exact Hrun|]. apply (Hp eq_refl).
Defined.

(** The third column of the harmonics table is dead: whatever the raw
    draw, the column read at power-on is 0 or 1. *)
Example bass_pitch_columns :
  map (fun r => option_map (fun x => pitch (bassCurrentNote (snd x)))
                  (defineBassNote f4_0 f5_0 (power_on (const_draws r))))
      [0; 1; 2; 3; 4; 5]%N
  = [Some 2; Some 4; Some 2; Some 4; Some 2; Some 4].
Proof. reflexivity. Qed.

(* ------------------------------------------------------------------ *)
(** ** One cycle *)

Lemma bb_scale_rows (n : nat) (row : list frequency) :
  nth_error bb_scale n = Some row -> length row = 8%nat.
Proof.
  intros H.
  do 6 (destruct n as [|n]; [inversion H; reflexivity|]).
  destruct n; discriminate H.
Qed.

(** The scale table has an entry for every voice inside its ranges. *)
Lemma scale_lookup_run (n : note) (w : world) :
  octave_ok n -> pitch_ok n ->
  exists row f,
    nth_error bb_scale (Z.to_nat (octave n)) = Some row /\
    nth_error row (Z.to_nat (pitch n)) = Some f /\
    scale_lookup n w = Some (f, w).
Proof.
  unfold octave_ok, pitch_ok. intros Ho Hp. unfold scale_lookup, bind.
  destruct (index_in_bounds bb_scale (octave n) w) as (row & Hrow & ->).
  { change (Z.of_nat (length bb_scale)) with 6. lia. }
  destruct (index_in_bounds row (pitch n) w) as (f & Hf & ->).
  { rewrite (bb_scale_rows _ _ Hrow). lia. }
  exists row, f. auto.
Qed.

(** The cycle body returns from every world and for all magnitudes: the
    melody selector runs, then the bass selector on the world it left, and
    both voices are then found in the scale table. *)
Lemma playNote_run (totalAcc totalSpin : float) (w : world) :
  exists w1 w2 fm fb w',
    defineMelodyNote totalAcc totalSpin w = Some (tt, w1) /\
    defineBassNote totalAcc totalSpin w1 = Some (tt, w2) /\
    scale_lookup (melodyCurrentNote w2) w2 = Some (fm, w2) /\
    scale_lookup (bassCurrentNote w2) w2 = Some (fb, w2) /\
    playNote totalAcc totalSpin w = Some (tt, w') /\
    melodyCurrentNote w' = melodyCurrentNote w2 /\
    bassCurrentNote w' = bassCurrentNote w2 /\
    output w' = output w
                ++ [Println (duration (melodyCurrentNote w2));
                    Println (octave (melodyCurrentNote w2));
                    Println (pitch (melodyCurrentNote w2));
                    Tone BUZZZER_PIN_1 fm; Tone BUZZZER_PIN_2 fb].
Proof.
  destruct (defineMelodyNote_run totalAcc totalSpin w)
    as (p1 & w0 & i & d & w1 & _ & _ & _ & _ & _ & Hrun & Hmel & Hbass & _ & _ & Hout).
  assert (Hok : pitch_ok (melodyCurrentNote w1)).
  { unfold pitch_ok. rewrite Hmel. cbn [pitch].
    apply silence_override_range, melody_pitch_clamp_range. }
  destruct (defineBassNote_run totalAcc totalSpin w1 Hok)
    as (row & c & p & i' & d' & w2 & _ & _ & _ & _ & Hpr & _ & _ & _
        & Hrun' & Hbass' & Hmel' & _ & _ & Hout').
  assert (Hm2 : octave_ok (melodyCurrentNote w2) /\ pitch_ok (melodyCurrentNote w2)).
  { rewrite Hmel'. split; [|assumption]. unfold octave_ok. rewrite Hmel.
    cbn [octave]. apply melody_octave_wrap_range. }
  assert (Hb2 : octave_ok (bassCurrentNote w2) /\ pitch_ok (bassCurrentNote w2)).
  { unfold octave_ok, pitch_ok. rewrite Hbass'. cbn [octave pitch].
    split; [apply bass_octave_wrap_range | assumption]. }
  destruct (scale_lookup_run _ w2 (proj1 Hm2) (proj2 Hm2)) as (rm & fm & _ & _ & Hfm).
  destruct (scale_lookup_run _ w2 (proj1 Hb2) (proj2 Hb2)) as (rb & fb & _ & _ & Hfb).
  assert (Hext : forall n (u v : world),
             scale_lookup n u = option_map (fun r => (fst r, u)) (scale_lookup n v)).
  { intros n u v. unfold scale_lookup, bind, index, ret, fail.
    destruct (octave n <? 0); [reflexivity|].
    destruct (nth_error bb_scale (Z.to_nat (octave n))) as [l|]; [|reflexivity].
    destruct (pitch n <? 0); [reflexivity|].
    destruct (nth_error l (Z.to_nat (pitch n))); reflexivity. }
  assert (Hplay : exists w',
             playNote totalAcc totalSpin w = Some (tt, w') /\
             melodyCurrentNote w' = melodyCurrentNote w2 /\
             bassCurrentNote w' = bassCurrentNote w2 /\
             output w' = output w2
                ++ [Println (duration (melodyCurrentNote w2));
                    Println (octave (melodyCurrentNote w2));
                    Println (pitch (melodyCurrentNote w2));
                    Tone BUZZZER_PIN_1 fm; Tone BUZZZER_PIN_2 fb]).
  { unfold playNote, bind. rewrite Hrun, Hrun'.
    unfold gets, emit, modify.
    match goal with
    | |- context [scale_lookup (melodyCurrentNote w2) ?u] =>
        rewrite (Hext (melodyCurrentNote w2) u w2)
    end.
    rewrite Hfm. cbn [option_map fst].
    match goal with
    | |- context [scale_lookup ?n ?u] => rewrite (Hext n u w2)
    end.
    cbn [bassCurrentNote]. rewrite Hfb. cbn [option_map fst].
    eexists. split; [reflexivity|]. cbn [melodyCurrentNote bassCurrentNote output].
    rewrite <- !app_assoc. repeat split. }
  destruct Hplay as (w' & Hplay & Hm' & Hb' & Ho').
  exists w1, w2, fm, fb, w'. rewrite Ho', Hout', Hout.
  repeat split; assumption.
Qed.

(** Every cycle leaves both voices inside the ranges of the scale table,
    so the cycles of [loop] never read a table outside its bounds and the
    integers of the voices stay between 0 and 7. *)
Lemma playNote_voices_ok (totalAcc totalSpin : float) (w : world) :
  exists w', playNote totalAcc totalSpin w = Some (tt, w') /\ voices_ok w'.
Proof.
  destruct (playNote_run totalAcc totalSpin w)
    as (w1 & w2 & fm & fb & w' & Hrun1 & Hrun2 & _ & _ & Hplay & Hm' & Hb' & _).
  destruct (defineMelodyNote_run totalAcc totalSpin w)
    as (p1 & w0 & i & d & w1' & _ & _ & _ & _ & _ & Hrun1' & Hmel & _).
  rewrite Hrun1 in Hrun1'. inversion Hrun1'; subst w1'. clear Hrun1'.
  assert (Hok : pitch_ok (melodyCurrentNote w1)).
  { unfold pitch_ok. rewrite Hmel. cbn [pitch].
    apply silence_override_range, melody_pitch_clamp_range. }
  destruct (defineBassNote_run totalAcc totalSpin w1 Hok)
    as (row & c & p & i' & d' & w2' & _ & _ & _ & _ & Hpr & _ & _ & _
        & Hrun2' & Hbass & Hmel2 & _).
  rewrite Hrun2 in Hrun2'. inversion Hrun2'; subst w2'. clear Hrun2'.
  exists w'. split; [exact Hplay|].
  unfold voices_ok, pitch_ok, octave_ok.
  rewrite Hm', Hb', Hmel2, Hbass, Hmel. cbn [pitch octave].
  pose proof (melody_pitch_clamp_range p1) as Hc.
  pose proof (silence_override_range totalAcc totalSpin _ Hc).
  pose proof (melody_octave_wrap_range
                (melody_octave_walk totalAcc (octave (melodyCurrentNote w)))).
  pose proof (bass_octave_wrap_range
                (bass_octave_walk totalSpin (octave (bassCurrentNote w1)))).
  repeat split; lia.
Qed.

Lemma play_cycles_voices_ok (readings : list (float * float)) (w : world) :
  voices_ok w ->
  exists w', play_cycles readings w = Some (tt, w') /\ voices_ok w'.
Proof.
  revert w. induction readings as [|[totalAcc totalSpin] rest IH]; intros w Hw.
  - exists w. split; [reflexivity | exact Hw].
  - destruct (playNote_voices_ok totalAcc totalSpin w) as (w1 & Hrun & Hw1).
    destruct (IH w1 Hw1) as (w' & Hrest & Hw').
    exists w'. split; [|exact Hw'].
    cbn [play_cycles]. unfold bind. rewrite Hrun. exact Hrest.
Qed.

(** Claim C8: from melody (pitch 0, octave 3) and bass (pitch 0, octave 0),
    one cycle at [totalAcc = 4.0] and [totalSpin = 5.0] returns for every
    sequence of draws and takes the next four of them, in this order: the
    first, reduced modulo 6, is the draw [r] added to the melody pitch; the
    second, reduced modulo 10, is the table index [i1] of the melody
    duration; the third, reduced modulo 2, is the column [c] read in the
    harmonics row of the new melody pitch; the fourth, reduced modulo 10,
    is the table index [i2] of the bass duration.  The cycle leaves melody
    octave 4, melody pitch [0 + r], bass octave 1, the bass pitch found at
    column [c] of that row, and for both voices the duration found at its
    index, which is from 0 to 9, hence 125 or 250. *)
Theorem first_cycle_scenario (w : world) :
  pitch (melodyCurrentNote w) = 0 -> octave (melodyCurrentNote w) = 3 ->
  pitch (bassCurrentNote w) = 0 -> octave (bassCurrentNote w) = 0 ->
  exists r row c i1 i2 w',
    playNote f4_0 f5_0 w = Some (tt, w') /\
    r = raw w mod 6 /\ r = draw w 0 mod 6 /\ 0 <= r < 6 /\
    pitch (melodyCurrentNote w') = 0 + r /\
    octave (melodyCurrentNote w') = 4 /\
    octave (bassCurrentNote w') = 1 /\
    nth_error harmonics (Z.to_nat (pitch (melodyCurrentNote w'))) = Some row /\
    c = draw w 2 mod 2 /\
    nth_error row (Z.to_nat c) = Some (pitch (bassCurrentNote w')) /\
    In (pitch (bassCurrentNote w')) row /\
    i1 = draw w 1 mod 10 /\ 0 <= i1 < 10 /\
    nth_error noteDuration (Z.to_nat i1) = Some (duration (melodyCurrentNote w')) /\
    i2 = draw w 3 mod 10 /\ 0 <= i2 < 10 /\
    nth_error noteDuration (Z.to_nat i2) = Some (duration (bassCurrentNote w')) /\
    (duration (melodyCurrentNote w') = 125 \/ duration (melodyCurrentNote w') = 250) /\
    (duration (bassCurrentNote w') = 125 \/ duration (bassCurrentNote w') = 250).
Proof.
  intros Hmp Hmo Hbp Hbo.
  destruct (playNote_run f4_0 f5_0 w)
    as (w1 & w2 & fm & fb & w' & Hrun1 & Hrun2 & _ & _ & Hplay & Hm' & Hb' & _).
  destruct (defineMelodyNote_run f4_0 f5_0 w)
    as (p1 & w0 & i1 & d1 & w1' & Hwalk & _ & Hi1eq & Hi1 & Hd1 & Hrun1' & Hmel
        & Hbass1 & He1 & Ht1 & _).
  rewrite Hrun1 in Hrun1'. inversion Hrun1'; subst w1'. clear Hrun1'.
  rewrite Hmp, Hmo in *.
  assert (Hw : melody_pitch_walk f5_0 0 w = Some (0 + (0 + raw w mod 6), tick w))
    by reflexivity.
  rewrite Hw in Hwalk. inversion Hwalk; subst p1 w0. clear Hwalk.
  pose proof (Z.mod_pos_bound (raw w) 6 ltac:(lia)) as Hr.
  assert (Hok : pitch_ok (melodyCurrentNote w1)).
  { unfold pitch_ok. rewrite Hmel. cbn [pitch].
    apply silence_override_range, melody_pitch_clamp_range. }
  destruct (defineBassNote_run f4_0 f5_0 w1 Hok)
    as (row & c & p & i2 & d2 & w2' & Hrow & Hc & _ & Hp & _ & Hi2eq & Hi2 & Hd2
        & Hrun2' & Hbass & Hmel2 & _).
  rewrite Hrun2 in Hrun2'. inversion Hrun2'; subst w2'. clear Hrun2'.
  assert (Hbo1 : octave (bassCurrentNote w1) = 0) by (rewrite Hbass1; exact Hbo).
  change (band_of f4_0) with Fast in *.
  cbn [band_lo band_hi] in Hi1, Hi2, Hi1eq, Hi2eq.
  change (10 - 0) with 10 in Hi1eq, Hi2eq. rewrite Z.add_0_l in Hi1eq, Hi2eq.
  assert (D0 : raw w = draw w 0)
    by (unfold raw, draw; rewrite Nat.add_0_r; reflexivity).
  assert (D1 : raw (tick w) = draw w 1)
    by (unfold raw, draw; cbn [tick entropy taken]; rewrite Nat.add_1_r; reflexivity).
  assert (D2 : raw w1 = draw w 2).
  { unfold raw, draw. rewrite He1, Ht1. cbn [tick taken].
    replace (taken w + 2)%nat with (S (S (taken w))) by lia. reflexivity. }
  assert (D3 : raw (tick w1) = draw w 3).
  { unfold raw, draw. cbn [tick entropy taken]. rewrite He1, Ht1. cbn [tick taken].
    replace (taken w + 3)%nat with (S (S (S (taken w)))) by lia. reflexivity. }
  rewrite D1 in Hi1eq. rewrite D2 in Hc. rewrite D3 in Hi2eq.
  assert (Hclamp : melody_pitch_clamp (raw w mod 6) = raw w mod 6).
  { unfold melody_pitch_clamp.
    destruct (Z.ltb_spec (raw w mod 6) 0); [lia|].
    apply while_gt6_range. lia. }
  exists (raw w mod 6), row, c, i1, i2, w'.
  rewrite Hm', Hb', Hmel2, Hbass, Hmel, Hbo1. cbn [pitch octave duration].
  rewrite Hmel in Hrow. cbn [pitch] in Hrow.
  change (silence_override f4_0 f5_0) with (fun p : Z => p) in *.
  cbn beta in *. rewrite ?Z.add_0_l in *. rewrite Hclamp in Hrow |- *.
  destruct (noteDuration_values _ _ Hd1) as (U1 & U2 & _).
  destruct (noteDuration_values _ _ Hd2) as (V1 & V2 & _).
  repeat split; try assumption; try lia.
  - rewrite D0. reflexivity.
  - apply nth_error_In in Hp. exact Hp.
Qed.

Lemma first_cycle_scenario_witness :
  exists w',
    playNote f4_0 f5_0 (power_on (const_draws 4)) = Some (tt, w') /\
    octave (melodyCurrentNote w') = 4 /\
    octave (bassCurrentNote w') = 1.
Proof.
  destruct (first_cycle_scenario (power_on (const_draws 4))
              eq_refl eq_refl eq_refl eq_refl)
    as (r & row & c & i1 & i2 & w' & Hrun & _ & _ & _ & _ & Hmo & Hbo & _).
  exists w'. auto.
Defined.

(** The first cycle on the draws 1, 9, 1, 3: the melody moves to pitch 1
    with the duration of index 9, the bass takes column 1 of the row of 1
    with the duration of index 3. *)
Example first_cycle_run :
  notes_of (playNote f4_0 f5_0
              (power_on (fun n => nth n [1; 9; 1; 3]%N 0%N)))
  = Some (mkNote 1 4 250, mkNote 5 1 125).
Proof. reflexivity. Qed.

(* ------------------------------------------------------------------ *)
(** ** Determinism once the draws are fixed *)

Lemma same_inputs_raw (w1 w2 : world) : same_inputs w1 w2 -> raw w1 = raw w2.
Proof.
  intros (_ & _ & H). specialize (H 0%nat).
  rewrite !Nat.add_0_r in H. unfold raw. rewrite H. reflexivity.
Qed.

Lemma same_inputs_tick (w1 w2 : world) :
  same_inputs w1 w2 -> same_inputs (tick w1) (tick w2).
Proof.
  intros (Hm & Hb & H). repeat split; try assumption.
  intros k. cbn [tick entropy taken]. specialize (H (S k)).
  rewrite !Nat.add_succ_r in H. exact H.
Qed.

Section Deterministic.

Context {A B : Type}.

Lemma det_ret (a : A) : deterministic (ret a).
Proof. intros w1 w2 H. cbn. auto. Qed.

Lemma det_fail : deterministic (@fail A).
Proof. intros w1 w2 H. exact I. Qed.

Lemma det_bind (c : M A) (k : A -> M B) :
  deterministic c -> (forall a, deterministic (k a)) ->
  deterministic (bind c k).
Proof.
  intros Hc Hk w1 w2 H. unfold bind. specialize (Hc w1 w2 H).
  destruct (c w1) as [[a1 w1']|], (c w2) as [[a2 w2']|]; try contradiction.
  - destruct Hc as [-> Hw]. apply (Hk a2 w1' w2' Hw).
  - exact I.
Qed.

Lemma det_if (b : bool) (c1 c2 : M A) :
  deterministic c1 -> deterministic c2 ->
  deterministic (if b then c1 else c2).
Proof. destruct b; auto. Qed.

Lemma det_index (a : list A) (i : Z) : deterministic (index a i).
Proof.
  intros w1 w2 H. unfold index.
  destruct (i <? 0); [exact I|].
  destruct (nth_error a (Z.to_nat i)); cbn; auto.
Qed.

Lemma det_gets (f : world -> A) :
  (forall w1 w2, same_inputs w1 w2 -> f w1 = f w2) ->
  deterministic (gets f).
Proof. intros Hf w1 w2 H. cbn. auto. Qed.

End Deterministic.

Lemma det_random (lo hi : Z) : deterministic (random lo hi).
Proof.
  intros w1 w2 H. unfold random. destruct (lo >=? hi); [auto|].
  rewrite (same_inputs_raw _ _ H). split; [reflexivity|].
  apply same_inputs_tick, H.
Qed.

Lemma det_on_melody (f : note -> note) : deterministic (modify (on_melody f)).
Proof.
  intros w1 w2 (Hm & Hb & H). cbn. split; [reflexivity|].
  repeat split; cbn; [rewrite Hm; reflexivity | assumption | assumption].
Qed.

Lemma det_on_bass (f : note -> note) : deterministic (modify (on_bass f)).
Proof.
  intros w1 w2 (Hm & Hb & H). cbn. split; [reflexivity|].
  repeat split; cbn; [assumption | rewrite Hb; reflexivity | assumption].
Qed.

Lemma det_emit (ev : event) : deterministic (emit ev).
Proof.
  intros w1 w2 (Hm & Hb & H). cbn. split; [reflexivity|].
  repeat split; cbn; assumption.
Qed.

Lemma det_gets_melody {A} (f : note -> A) :
  deterministic (gets (fun w => f (melodyCurrentNote w))).
Proof. apply det_gets. intros w1 w2 (Hm & _). rewrite Hm. reflexivity. Qed.

Lemma det_gets_bass {A} (f : note -> A) :
  deterministic (gets (fun w => f (bassCurrentNote w))).
Proof. apply det_gets. intros w1 w2 (_ & Hb & _). rewrite Hb. reflexivity. Qed.

Ltac det_step :=
  first
    [ apply det_index
    | apply det_bind; [|intros ?]
    | apply det_if
    | apply det_ret
    | apply det_random
    | apply det_on_melody
    | apply det_on_bass
    | apply det_emit
    | apply (det_gets_melody (fun n => n))
    | apply (det_gets_bass (fun n => n))
    | apply det_gets_melody
    | apply det_gets_bass ].

Lemma det_defineNoteDuration (totalAcc : float) :
  deterministic (defineNoteDuration totalAcc).
Proof. unfold defineNoteDuration. repeat det_step. Qed.

Lemma det_defineMelodyNote (totalAcc totalSpin : float) :
  deterministic (defineMelodyNote totalAcc totalSpin).
Proof.
  unfold defineMelodyNote. cbv zeta.
  repeat first [apply det_defineNoteDuration | det_step].
Qed.

Lemma det_defineBassNote (totalAcc totalSpin : float) :
  deterministic (defineBassNote totalAcc totalSpin).
Proof.
  unfold defineBassNote. cbv zeta.
  repeat first [apply det_defineNoteDuration | det_step].
Qed.

Lemma det_playNote (totalAcc totalSpin : float) :
  deterministic (playNote totalAcc totalSpin).
Proof.
  unfold playNote, scale_lookup.
  repeat first [apply det_defineMelodyNote | apply det_defineBassNote | det_step].
Qed.

Lemma deterministic_notes {A} (c : M A) (w1 w2 : world) :
  deterministic c -> same_inputs w1 w2 ->
  notes_of (c w1) = notes_of (c w2) /\
  option_map fst (c w1) = option_map fst (c w2).
Proof.
  intros Hc H. specialize (Hc w1 w2 H).
  destruct (c w1) as [[a1 w1']|], (c w2) as [[a2 w2']|]; try contradiction.
  - destruct Hc as (-> & Hm & Hb & _). cbn. rewrite Hm, Hb. auto.
  - auto.
Qed.

(** Claim C10: with the draws fixed, two runs of the selectors on the same
    magnitudes and the same prior voices end with the same voices (pitch,
    octave and duration of melody and bass).  The two worlds may differ in
    everything else: what was sent out before and how many draws were
    taken before. *)
Theorem selectors_deterministic (totalAcc totalSpin : float) (w1 w2 : world) :
  same_inputs w1 w2 ->
  notes_of (defineMelodyNote totalAcc totalSpin w1)
  = notes_of (defineMelodyNote totalAcc totalSpin w2) /\
  notes_of (defineBassNote totalAcc totalSpin w1)
  = notes_of (defineBassNote totalAcc totalSpin w2) /\
  notes_of ((defineMelodyNote totalAcc totalSpin ;;;
             defineBassNote totalAcc totalSpin) w1)
  = notes_of ((defineMelodyNote totalAcc totalSpin ;;;
               defineBassNote totalAcc totalSpin) w2) /\
  notes_of (playNote totalAcc totalSpin w1)
  = notes_of (playNote totalAcc totalSpin w2).
Proof.
  intros H. repeat split.
  - apply deterministic_notes; [apply det_defineMelodyNote | exact H].
  - apply deterministic_notes; [apply det_defineBassNote | exact H].
  - apply deterministic_notes; [|exact H].
    apply det_bind; [apply det_defineMelodyNote | intros _; apply det_defineBassNote].
  - apply deterministic_notes; [apply det_playNote | exact H].
Qed.

Lemma selectors_deterministic_witness :
  same_inputs (power_on (const_draws 4))
              (mkWorld (mkNote 0 3 0) (mkNote 0 0 0) (const_draws 4) 9
                       [Println 125]) /\
  notes_of (playNote f4_0 f5_0 (power_on (const_draws 4)))
  = notes_of (playNote f4_0 f5_0
                (mkWorld (mkNote 0 3 0) (mkNote 0 0 0) (const_draws 4) 9
                         [Println 125])).
Proof.
  assert (H : same_inputs (power_on (const_draws 4))
                (mkWorld (mkNote 0 3 0) (mkNote 0 0 0) (const_draws 4) 9
                         [Println 125]))
    by (repeat split; reflexivity).
  split; [exact H|].
  apply (selectors_deterministic f4_0 f5_0 _ _ H).
Defined.

(* ------------------------------------------------------------------ *)
(** ** More order facts, about the thresholds of the bands *)

Ltac absurd_bool := let H := fresh in intros H; discriminate H.

Lemma fgt_0_75_fgt_0_5 (x : float) :
  (x >? lit_0_75)%fl = true -> (x >? lit_0_5)%fl = true.
Proof.
  unfold fgt, SFltb, lit_0_75, lit_0_5.
  destruct x as [s|s| |s m e];
    try (try destruct s; cbv [SFcompare]; intros H;
         first [discriminate H | reflexivity]).
  destruct s; cbv [SFcompare]; [absurd_bool|].
  destruct (Z.compare_spec (-53) e); [|intros _; reflexivity|absurd_bool].
  change (PosDef.Pos.compare_cont Eq ?a ?b) with (Pos.compare a b).
  destruct (Pos.compare_spec 6755399441055744 m); [absurd_bool| |absurd_bool].
  intros _. destruct (Pos.compare_spec 4503599627370496 m) as [E|E|E];
    [subst m | reflexivity | pose proof (Pos.lt_trans _ _ _ H0 E) as H1; clear H0; rename H1 into H0];
    vm_compute in H0; discriminate H0.
Qed.

Lemma flt_0_75_flt_3 (x : float) :
  (x <? lit_0_75)%fl = true -> (x <? int_3)%fl = true.
Proof.
  unfold flt, SFltb, lit_0_75, int_3.
  destruct x as [s|s| |s m e];
    try (try destruct s; cbv [SFcompare]; intros H;
         first [discriminate H | reflexivity]).
  destruct s; cbv [SFcompare]; [intros _; reflexivity|].
  destruct (Z.compare_spec e (-53)), (Z.compare_spec e (-51));
    try lia; first [absurd_bool | intros _; reflexivity].
Qed.

Lemma feq_not_lt (x y : float) :
  SFeqb x y = true -> (x <? y)%fl = false /\ (x >? y)%fl = false.
Proof.
  unfold SFeqb, flt, fgt, SFltb. rewrite (SFcompare_antisym x y).
  destruct (SFcompare x y) as [[| |]|]; cbn [option_map CompOpp];
    first [absurd_bool | intros _; split; reflexivity].
Qed.

(** A value above 0.5 is below, equal to or above 0.75. *)
Lemma fgt_0_5_trichotomy (x : float) :
  (x >? lit_0_5)%fl = true ->
  (x <? lit_0_75)%fl = true \/ SFeqb x lit_0_75 = true \/ (x >? lit_0_75)%fl = true.
Proof.
  unfold fgt, flt, SFeqb, SFltb. intros H.
  rewrite (SFcompare_antisym x lit_0_75).
  destruct (SFcompare x lit_0_75) as [[| |]|] eqn:E; cbn [option_map CompOpp]; auto.
  exfalso. revert H E. unfold lit_0_5, lit_0_75.
  destruct x as [s|s| |s m e]; cbv [SFcompare]; try destruct s;
    intros H1 H2; first [discriminate H1 | discriminate H2].
Qed.

(* ------------------------------------------------------------------ *)
(** ** The fast band of the duration selector *)

Lemma band_of_fast (totalAcc : float) :
  (totalAcc >? lit_0_5)%fl = false \/ SFeqb totalAcc lit_0_75 = true \/
  (totalAcc <? int_3)%fl = false ->
  band_of totalAcc = Fast.
Proof.
  intros H. unfold band_of.
  destruct (totalAcc >? lit_0_5)%fl eqn:E5; cbn [andb].
  - destruct (totalAcc <? lit_0_75)%fl eqn:E75.
    + pose proof (flt_0_75_flt_3 _ E75) as E3.
      destruct H as [H|[H|H]]; try discriminate H.
      * destruct (feq_not_lt _ _ H) as [H1 _]. rewrite H1 in E75. discriminate E75.
      * rewrite H in E3. discriminate E3.
    + destruct (totalAcc >? lit_0_75)%fl eqn:G75; cbn [andb]; [|reflexivity].
      destruct (totalAcc <? int_3)%fl eqn:E3; [|reflexivity].
      destruct H as [H|[H|H]]; try discriminate H.
      destruct (feq_not_lt _ _ H) as [_ H1]. rewrite H1 in G75. discriminate G75.
  - destruct (totalAcc >? lit_0_75)%fl eqn:G75; cbn [andb]; [|reflexivity].
    rewrite (fgt_0_75_fgt_0_5 _ G75) in E5. discriminate E5.
Qed.

(** X1: outside the two open intervals, that is when [totalAcc] is not
    above 0.5 (not-a-number included), is exactly 0.75, or is not below 3,
    the duration selector reads the table at [raw mod 10], an index from 0
    to 9, and returns 125 (indices 0 to 7) or 250 (indices 8 and 9). *)
Theorem defineNoteDuration_fast_band (totalAcc : float) (w : world) :
  (totalAcc >? lit_0_5)%fl = false \/ SFeqb totalAcc lit_0_75 = true \/
  (totalAcc <? int_3)%fl = false ->
  exists i d,
    i = raw w mod 10 /\ 0 <= i < 10 /\
    nth_error noteDuration (Z.to_nat i) = Some d /\
    defineNoteDuration totalAcc w = Some (d, tick w) /\
    (d = 125 \/ d = 250) /\
    (i < 8 -> d = 125) /\ (8 <= i -> d = 250).
Proof.
  intros H. pose proof (band_of_fast _ H) as Hb.
  destruct (defineNoteDuration_run totalAcc w) as (i & d & Hi & Hr & Hd & Hrun).
  rewrite Hb in Hi, Hr. cbn [band_lo band_hi] in Hi, Hr.
  change (10 - 0) with 10 in Hi. rewrite Z.add_0_l in Hi.
  destruct (noteDuration_values _ _ Hd) as (V1 & V2 & _).
  exists i, d. repeat split; try assumption; try lia.
Qed.

Lemma defineNoteDuration_fast_band_witness :
  SFeqb lit_0_75 lit_0_75 = true /\
  exists i d,
    i = raw (power_on (const_draws 8)) mod 10 /\
    defineNoteDuration lit_0_75 (power_on (const_draws 8))
    = Some (d, tick (power_on (const_draws 8))) /\
    (d = 125 \/ d = 250).
Proof.
  split; [reflexivity|].
  destruct (defineNoteDuration_fast_band lit_0_75 (power_on (const_draws 8))
              (or_intror (or_introl eq_refl)))
    as (i & d & Hi & _ & _ & Hrun & Hd & _).
  exists i, d. auto.
Defined.

(** The band is fast in these cases only. *)
Lemma band_of_fast_only (totalAcc : float) :
  band_of totalAcc = Fast ->
  (totalAcc >? lit_0_5)%fl = false \/ SFeqb totalAcc lit_0_75 = true \/
  (totalAcc <? int_3)%fl = false.
Proof.
  unfold band_of. intros H.
  destruct (totalAcc >? lit_0_5)%fl eqn:E5; [|auto].
  destruct (fgt_0_5_trichotomy _ E5) as [T|[T|T]]; [|auto|].
  - rewrite T in H. discriminate H.
  - rewrite T in H. cbn [andb] in H.
    destruct (totalAcc <? lit_0_75)%fl; [discriminate H|].
    destruct (totalAcc <? int_3)%fl; [discriminate H|auto].
Qed.

(* ------------------------------------------------------------------ *)
(** ** More on the melody selector *)

(** X2: the melody selector stores the silence pitch 7 exactly when the
    override fires, that is when [totalAcc < 0.5] or [totalSpin < 0.5];
    the walk and the clamp never produce a 7. *)
Theorem melody_silent_iff (totalAcc totalSpin : float) (w : world) :
  exists w',
    defineMelodyNote totalAcc totalSpin w = Some (tt, w') /\
    (pitch (melodyCurrentNote w') = 7 <->
     (totalAcc <? lit_0_5)%fl || (totalSpin <? lit_0_5)%fl = true).
Proof.
  destruct (defineMelodyNote_run totalAcc totalSpin w)
    as (p1 & w1 & i & d & w' & _ & _ & _ & _ & _ & Hrun & Hmel & _).
  exists w'. split; [exact Hrun|]. rewrite Hmel. cbn [pitch].
  unfold silence_override.
  pose proof (melody_pitch_clamp_range p1).
  destruct (_ || _); split; intros; first [reflexivity | lia | discriminate].
Qed.

Lemma Some_pair_inj {A B} {a a' : A} {b b' : B} :
  Some (a, b) = Some (a', b') -> a' = a /\ b' = b.
Proof. intros H. inversion H. auto. Qed.

(** The walk takes a draw exactly when one of its branches fires. *)
Lemma melody_pitch_walk_cases (totalSpin : float) (p : Z) (w : world) :
  melody_pitch_walk totalSpin p w =
  if (totalSpin <? int_3)%fl then Some (p - raw w mod 6, tick w)
  else if (totalSpin >? int_4)%fl then Some (p + raw w mod 6, tick w)
  else Some (p, w).
Proof.
  unfold melody_pitch_walk, bind, ret.
  destruct (totalSpin <? int_3)%fl eqn:E.
  - rewrite (flt_3_not_fgt_4 _ E).
    destruct (random_run 0 6 w) as [-> _]; [lia|].
    change (6 - 0) with 6. rewrite Z.add_0_l. reflexivity.
  - destruct (totalSpin >? int_4)%fl; [|reflexivity].
    destruct (random_run 0 6 w) as [-> _]; [lia|].
    change (6 - 0) with 6. rewrite Z.add_0_l. reflexivity.
Qed.

(** The loop of the clamp in closed form: above 6 it lands on the one
    value among 4, 5 and 6 that differs from the pitch by a multiple
    of 3. *)
Lemma while_gt6_closed (p : Z) :
  while_gt6 p = if p <=? 6 then p else 4 + (p - 4) mod 3.
Proof.
  remember (Z.to_nat p) as n eqn:Hn. revert p Hn.
  induction n as [n IH] using lt_wf_ind. intros p Hn.
  rewrite while_gt6_step.
  destruct (Z.gtb_spec p 6) as [Hgt|Hle], (Z.leb_spec p 6) as [Hle'|Hgt'];
    try lia.
  rewrite (IH (Z.to_nat (p - 3)) ltac:(lia) (p - 3) eq_refl).
  destruct (Z.leb_spec (p - 3) 6).
  - assert (E : p = 7 \/ p = 8 \/ p = 9) by lia.
    destruct E as [->|[->| ->]]; reflexivity.
  - replace (p - 4) with (p - 3 - 4 + 1 * 3) by lia.
    rewrite Z_mod_plus_full. reflexivity.
Qed.

(** The clamp sees only the absolute value of the pitch. *)
Lemma melody_pitch_clamp_abs (p : Z) :
  melody_pitch_clamp p = while_gt6 (Z.abs p).
Proof.
  unfold melody_pitch_clamp.
  destruct (Z.ltb_spec p 0); [reflexivity|].
  rewrite Z.abs_eq by lia. reflexivity.
Qed.

(** X3: the clamp in closed form, for every pitch whose absolute value is
    an [int].  A pitch of absolute value at most 6 is folded to its
    absolute value; beyond that, to the one value among 4, 5 and 6 that
    differs from the absolute value by a multiple of 3.  So the clamp
    gives the same for a pitch and its opposite, and clamping twice
    changes nothing more. *)
Theorem melody_pitch_clamp_closed (p : Z) :
  - INT_MAX <= p <= INT_MAX ->
  melody_pitch_clamp p
  = (if Z.abs p <=? 6 then Z.abs p else 4 + (Z.abs p - 4) mod 3) /\
  melody_pitch_clamp (- p) = melody_pitch_clamp p /\
  melody_pitch_clamp (melody_pitch_clamp p) = melody_pitch_clamp p.
Proof.
  intros _.
  split; [rewrite melody_pitch_clamp_abs; apply while_gt6_closed|].
  split; [rewrite !melody_pitch_clamp_abs, Z.abs_opp; reflexivity|].
  pose proof (melody_pitch_clamp_range p) as Hr.
  rewrite (melody_pitch_clamp_abs (melody_pitch_clamp p)), Z.abs_eq by lia.
  apply while_gt6_range. lia.
Qed.

Lemma melody_pitch_clamp_closed_witness :
  - INT_MAX <= -11 <= INT_MAX /\
  melody_pitch_clamp (-11) = 5 /\ melody_pitch_clamp (- -11) = 5.
Proof.
  assert (H : - INT_MAX <= -11 <= INT_MAX) by (unfold INT_MAX; lia).
  split; [exact H|].
  destruct (melody_pitch_clamp_closed (-11) H) as (E1 & E2 & _).
  split; [rewrite E1; reflexivity | rewrite E2, E1; reflexivity].
Defined.

(** X4: from a pitch between 0 and 6 and without silence, the new melody
    pitch is, with [r = raw mod 6]: the distance [|pitch - r|] when
    [totalSpin < 3]; [pitch + r], less 3 when above 6 and less 6 when
    above 9, when [totalSpin > 4]; and the old pitch, with no draw taken
    for it, in between. *)
Theorem melody_pitch_update (totalAcc totalSpin : float) (w : world) :
  0 <= pitch (melodyCurrentNote w) <= 6 ->
  (totalAcc <? lit_0_5)%fl || (totalSpin <? lit_0_5)%fl = false ->
  exists w',
    defineMelodyNote totalAcc totalSpin w = Some (tt, w') /\
    pitch (melodyCurrentNote w') =
      (let p := pitch (melodyCurrentNote w) in
       let r := raw w mod 6 in
       if (totalSpin <? int_3)%fl then Z.abs (p - r)
       else if (totalSpin >? int_4)%fl then
         if p + r <=? 6 then p + r else if p + r <=? 9 then p + r - 3 else p + r - 6
       else p) /\
    taken w' =
      (if (totalSpin <? int_3)%fl || (totalSpin >? int_4)%fl
       then S (S (taken w)) else S (taken w)).
Proof.
  intros Hp Hs.
  destruct (defineMelodyNote_run totalAcc totalSpin w)
    as (p1 & w1 & i & d & w' & Hwalk & _ & _ & _ & _ & Hrun & Hmel & _ & _ & Ht & _).
  exists w'. split; [exact Hrun|]. rewrite Hmel, Ht. cbn [pitch]. cbv zeta.
  unfold silence_override. rewrite Hs.
  rewrite melody_pitch_walk_cases in Hwalk.
  pose proof (Z.mod_pos_bound (raw w) 6 ltac:(lia)) as Hr.
  rewrite melody_pitch_clamp_abs, while_gt6_closed.
  destruct (totalSpin <? int_3)%fl; cbn [orb].
  - destruct (Some_pair_inj Hwalk) as [-> ->]. split; [|reflexivity].
    destruct (Z.leb_spec (Z.abs (pitch (melodyCurrentNote w) - raw w mod 6)) 6);
      [reflexivity | lia].
  - destruct (totalSpin >? int_4)%fl; destruct (Some_pair_inj Hwalk) as [-> ->].
    + split; [|reflexivity].
      set (q := pitch (melodyCurrentNote w) + raw w mod 6) in *.
      rewrite Z.abs_eq by lia.
      destruct (Z.leb_spec q 6); [reflexivity|].
      destruct (Z.leb_spec q 9).
      * assert (E : q = 7 \/ q = 8 \/ q = 9) by lia.
        destruct E as [->|[->| ->]]; reflexivity.
      * assert (E : q = 10 \/ q = 11) by lia.
        destruct E as [->| ->]; reflexivity.
    + split; [|reflexivity]. rewrite Z.abs_eq by lia.
      destruct (Z.leb_spec (pitch (melodyCurrentNote w)) 6); [reflexivity | lia].
Qed.

Lemma melody_pitch_update_witness :
  0 <= pitch (melodyCurrentNote (power_on (const_draws 4))) <= 6 /\
  (f4_0 <? lit_0_5)%fl || (f2_0 <? lit_0_5)%fl = false /\
  exists w',
    defineMelodyNote f4_0 f2_0 (power_on (const_draws 4)) = Some (tt, w') /\
    pitch (melodyCurrentNote w') = 4.
Proof.
  assert (Hp : 0 <= pitch (melodyCurrentNote (power_on (const_draws 4))) <= 6)
    by (cbn; lia).
  split; [exact Hp|]. split; [reflexivity|].
  destruct (melody_pitch_update f4_0 f2_0 (power_on (const_draws 4)) Hp eq_refl)
    as (w' & Hrun & Hpitch & _).
  exists w'. split; [exact Hrun|]. rewrite Hpitch. reflexivity.
Defined.

(** X5: after a rest, that is from the silence pitch 7, a cycle that is
    not silenced resumes on a pitch from 2 to 6, never on 0 or 1: the
    pitch is 4 when the walk adds or takes nothing, [7 - r] for a draw
    [r >= 1] when [totalSpin < 3], and 4, 5 or 6 when [totalSpin > 4]. *)
Theorem melody_resumes_from_2 (totalAcc totalSpin : float) (w : world) :
  pitch (melodyCurrentNote w) = 7 ->
  (totalAcc <? lit_0_5)%fl || (totalSpin <? lit_0_5)%fl = false ->
  exists w',
    defineMelodyNote totalAcc totalSpin w = Some (tt, w') /\
    2 <= pitch (melodyCurrentNote w') <= 6 /\
    ((totalSpin >? int_4)%fl = true -> 4 <= pitch (melodyCurrentNote w')).
Proof.
  intros Hp Hs.
  destruct (defineMelodyNote_run totalAcc totalSpin w)
    as (p1 & w1 & i & d & w' & Hwalk & _ & _ & _ & _ & Hrun & Hmel & _).
  exists w'. split; [exact Hrun|]. rewrite Hmel. cbn [pitch].
  unfold silence_override. rewrite Hs.
  rewrite melody_pitch_walk_cases, Hp in Hwalk.
  pose proof (Z.mod_pos_bound (raw w) 6 ltac:(lia)) as Hr.
  unfold melody_pitch_clamp.
  destruct (totalSpin <? int_3)%fl eqn:E3.
  - rewrite (flt_3_not_fgt_4 _ E3). destruct (Some_pair_inj Hwalk) as [-> ->].
    destruct (Z.ltb_spec (7 - raw w mod 6) 0); [lia|].
    pose proof (while_gt6_range (7 - raw w mod 6)).
    split; [|intros H'; discriminate H']. lia.
  - destruct (totalSpin >? int_4)%fl; destruct (Some_pair_inj Hwalk) as [-> ->].
    + destruct (Z.ltb_spec (7 + raw w mod 6) 0); [lia|].
      pose proof (while_gt6_range (7 + raw w mod 6)).
      split; [|intros _]; lia.
    + split; [|intros H'; discriminate H'].
      change (while_gt6 (if 7 <? 0 then Z.abs 7 else 7)) with 4. lia.
Qed.

Lemma melody_resumes_from_2_witness :
  pitch (melodyCurrentNote
           (on_melody (fun n => set_pitch n 7) (power_on (const_draws 5)))) = 7 /\
  (f4_0 <? lit_0_5)%fl || (f2_0 <? lit_0_5)%fl = false /\
  exists w',
    defineMelodyNote f4_0 f2_0
      (on_melody (fun n => set_pitch n 7) (power_on (const_draws 5)))
    = Some (tt, w') /\
    2 <= pitch (melodyCurrentNote w') <= 6.
Proof.
  split; [reflexivity|]. split; [reflexivity|].
  destruct (melody_resumes_from_2 f4_0 f2_0
              (on_melody (fun n => set_pitch n 7) (power_on (const_draws 5)))
              eq_refl eq_refl)
    as (w' & Hrun & Hr & _).
  exists w'. auto.
Defined.

(* ------------------------------------------------------------------ *)
(** ** More on the bass selector and on one cycle *)

(** The harmonics table as intervals: for a scale degree [m] from 0 to 6,
    column [c] of its row holds the degree [2 + 2 * c] steps above [m],
    counted round the seven degrees; the row of 7 holds 7 only. *)
Lemma harmonics_intervals (m c p : Z) (row : list Z) :
  0 <= m <= 7 -> 0 <= c < 3 ->
  nth_error harmonics (Z.to_nat m) = Some row ->
  nth_error row (Z.to_nat c) = Some p ->
  p = if m =? 7 then 7 else (m + 2 + 2 * c) mod 7.
Proof.
  intros Hm Hc Hrow Hp.
  assert (Em : m = 0 \/ m = 1 \/ m = 2 \/ m = 3 \/ m = 4 \/ m = 5 \/ m = 6 \/ m = 7)
    by lia.
  assert (Ec : c = 0 \/ c = 1 \/ c = 2) by lia.
  destruct Em as [->|[->|[->|[->|[->|[->|[->| ->]]]]]]];
    cbn in Hrow; injection Hrow as <-;
    destruct Ec as [->|[->| ->]]; cbn in Hp; injection Hp as <-; reflexivity.
Qed.

(** X6: for a melody pitch [m] from 0 to 6 the bass selector stores the
    scale degree [(m + 2 + 2 * (raw mod 2)) mod 7], the third or the fifth
    above the melody pitch: a pitch from 0 to 6 that differs from the
    melody pitch. *)
Theorem bass_pitch_third_or_fifth (totalAcc totalSpin : float) (w : world) :
  0 <= pitch (melodyCurrentNote w) <= 6 ->
  exists w',
    defineBassNote totalAcc totalSpin w = Some (tt, w') /\
    pitch (bassCurrentNote w')
    = (pitch (melodyCurrentNote w) + 2 + 2 * (raw w mod 2)) mod 7 /\
    0 <= pitch (bassCurrentNote w') <= 6 /\
    pitch (bassCurrentNote w') <> pitch (melodyCurrentNote w).
Proof.
  intros Hm.
  assert (Hok : pitch_ok (melodyCurrentNote w)) by (unfold pitch_ok; lia).
  destruct (defineBassNote_run totalAcc totalSpin w Hok)
    as (row & c & p & i & d & w' & Hrow & Hc & Hcr & Hp & _ & _ & _ & _
        & Hrun & Hbass & _).
  exists w'. split; [exact Hrun|]. rewrite Hbass. cbn [pitch].
  rewrite <- Hc.
  pose proof (harmonics_intervals _ c _ _ Hok ltac:(lia) Hrow Hp) as E.
  destruct (Z.eqb_spec (pitch (melodyCurrentNote w)) 7) as [E7|_]; [lia|].
  split; [exact E|]. rewrite E. clear E Hrow Hp Hbass Hrun Hok Hc.
  generalize dependent (pitch (melodyCurrentNote w)). intros m Hm.
  pose proof (Z.mod_pos_bound (m + 2 + 2 * c) 7 ltac:(lia)).
  split; [lia|].
  assert (Ec : c = 0 \/ c = 1) by lia.
  assert (Em : m = 0 \/ m = 1 \/ m = 2 \/ m = 3 \/ m = 4 \/ m = 5 \/ m = 6) by lia.
  destruct Ec as [->| ->];
    destruct Em as [->|[->|[->|[->|[->|[->| ->]]]]]]; cbn; lia.
Qed.

Lemma bass_pitch_third_or_fifth_witness :
  0 <= pitch (melodyCurrentNote (power_on (const_draws 3))) <= 6 /\
  exists w',
    defineBassNote f4_0 f5_0 (power_on (const_draws 3)) = Some (tt, w') /\
    pitch (bassCurrentNote w') = 4.
Proof.
  assert (Hm : 0 <= pitch (melodyCurrentNote (power_on (const_draws 3))) <= 6)
    by (cbn; lia).
  split; [exact Hm|].
  destruct (bass_pitch_third_or_fifth f4_0 f5_0 (power_on (const_draws 3)) Hm)
    as (w' & Hrun & Hp & _).
  exists w'. split; [exact Hrun|]. rewrite Hp. reflexivity.
Defined.

(** The scale lookup changes nothing. *)
Lemma scale_lookup_state (n : note) (u u' : world) (f : frequency) :
  scale_lookup n u = Some (f, u') -> u' = u.
Proof.
  unfold scale_lookup, bind, index, ret, fail.
  destruct (octave n <? 0); [discriminate|].
  destruct (nth_error bb_scale (Z.to_nat (octave n))) as [l|]; [|discriminate].
  destruct (pitch n <? 0); [discriminate|].
  destruct (nth_error l (Z.to_nat (pitch n))); [|discriminate].
  intros H. destruct (Some_pair_inj H) as [_ ->]. reflexivity.
Qed.

(** The last column of the scale table is the silence symbol. *)
Lemma scale_lookup_silence (n : note) (u u' : world) (f : frequency) :
  pitch n = 7 -> scale_lookup n u = Some (f, u') -> f = SILENCE.
Proof.
  intros Hp. unfold scale_lookup, bind, index, ret, fail. rewrite Hp.
  destruct (octave n <? 0); [discriminate|].
  destruct (Z.to_nat (octave n)) as [|[|[|[|[|[|k]]]]]]; cbn;
    try (intros H; destruct (Some_pair_inj H) as [-> _]; reflexivity).
  destruct k; discriminate.
Qed.

(** One cycle, with what it leaves of the random source. *)
Lemma playNote_world (totalAcc totalSpin : float) (w : world) :
  exists w1 w2 fm fb w',
    defineMelodyNote totalAcc totalSpin w = Some (tt, w1) /\
    defineBassNote totalAcc totalSpin w1 = Some (tt, w2) /\
    scale_lookup (melodyCurrentNote w2) w2 = Some (fm, w2) /\
    scale_lookup (bassCurrentNote w2) w2 = Some (fb, w2) /\
    playNote totalAcc totalSpin w = Some (tt, w') /\
    w' = {| melodyCurrentNote := melodyCurrentNote w2;
            bassCurrentNote := bassCurrentNote w2;
            entropy := entropy w2; taken := taken w2;
            output := output w2
                      ++ [Println (duration (melodyCurrentNote w2));
                          Println (octave (melodyCurrentNote w2));
                          Println (pitch (melodyCurrentNote w2));
                          Tone BUZZZER_PIN_1 fm; Tone BUZZZER_PIN_2 fb] |}.
Proof.
  destruct (playNote_run totalAcc totalSpin w)
    as (w1 & w2 & fm & fb & w' & Hrun1 & Hrun2 & Hfm & Hfb & Hplay & _).
  exists w1, w2, fm, fb, w'. repeat split; try assumption.
  assert (Hext : forall n (u v : world),
             scale_lookup n u = option_map (fun r => (fst r, u)) (scale_lookup n v)).
  { intros n u v. unfold scale_lookup, bind, index, ret, fail.
    destruct (octave n <? 0); [reflexivity|].
    destruct (nth_error bb_scale (Z.to_nat (octave n))) as [l|]; [|reflexivity].
    destruct (pitch n <? 0); [reflexivity|].
    destruct (nth_error l (Z.to_nat (pitch n))); reflexivity. }
  revert Hplay. unfold playNote, bind. rewrite Hrun1, Hrun2.
  unfold gets, emit, modify.
  match goal with
  | |- context [scale_lookup (melodyCurrentNote w2) ?u] =>
      rewrite (Hext (melodyCurrentNote w2) u w2)
  end.
  rewrite Hfm. cbn [option_map fst].
  match goal with
  | |- context [scale_lookup ?n ?u] => rewrite (Hext n u w2)
  end.
  cbn [bassCurrentNote]. rewrite Hfb. cbn [option_map fst].
  cbn [melodyCurrentNote bassCurrentNote output entropy taken].
  rewrite <- !app_assoc. cbn [app].
  intros H. destruct (Some_pair_inj H) as [_ ->]. reflexivity.
Qed.

(** X7: after every cycle from a state with both voices in range, as
    every state reached from power-on is, and for any magnitudes, the two
    voices are in harmony: either both hold the silence pitch 7, or the
    melody pitch is from 0 to 6 and the bass pitch is the third or the
    fifth above it in the scale.  The bass reads the pitch the melody has
    just been given, not the one before. *)
Theorem cycle_leaves_voices_in_harmony (totalAcc totalSpin : float) (w : world) :
  voices_ok w ->
  exists w',
    playNote totalAcc totalSpin w = Some (tt, w') /\
    ((pitch (melodyCurrentNote w') = 7 /\ pitch (bassCurrentNote w') = 7) \/
     (0 <= pitch (melodyCurrentNote w') <= 6 /\
      (pitch (bassCurrentNote w') = (pitch (melodyCurrentNote w') + 2) mod 7 \/
       pitch (bassCurrentNote w') = (pitch (melodyCurrentNote w') + 4) mod 7))).
Proof.
  intros _.
  destruct (playNote_run totalAcc totalSpin w)
    as (w1 & w2 & fm & fb & w' & Hrun1 & Hrun2 & _ & _ & Hplay & Hm' & Hb' & _).
  destruct (defineMelodyNote_run totalAcc totalSpin w)
    as (p1 & w0 & i & d & w1' & _ & _ & _ & _ & _ & Hrun1' & Hmel & _).
  rewrite Hrun1 in Hrun1'. destruct (Some_pair_inj Hrun1') as [_ ->].
  assert (Hok : pitch_ok (melodyCurrentNote w1)).
  { unfold pitch_ok. rewrite Hmel. cbn [pitch].
    apply silence_override_range, melody_pitch_clamp_range. }
  destruct (defineBassNote_run totalAcc totalSpin w1 Hok)
    as (row & c & p & i' & d' & w2' & Hrow & _ & Hcr & Hp & _ & _ & _ & _
        & Hrun2' & Hbass & Hmel2 & _).
  rewrite Hrun2 in Hrun2'. destruct (Some_pair_inj Hrun2') as [_ ->].
  exists w'. split; [exact Hplay|].
  rewrite Hm', Hb', Hmel2, Hbass. cbn [pitch].
  pose proof (harmonics_intervals _ c _ _ Hok ltac:(lia) Hrow Hp) as E.
  unfold pitch_ok in Hok.
  destruct (Z.eqb_spec (pitch (melodyCurrentNote w1)) 7) as [E7|N7].
  - left. auto.
  - right. split; [lia|].
    assert (Ec : c = 0 \/ c = 1) by lia.
    destruct Ec as [->| ->]; [left | right]; rewrite E; f_equal; lia.
Qed.

Lemma cycle_leaves_voices_in_harmony_witness :
  voices_ok (power_on (const_draws 3)) /\
  exists w',
    playNote f4_0 f5_0 (power_on (const_draws 3)) = Some (tt, w') /\
    ((pitch (melodyCurrentNote w') = 7 /\ pitch (bassCurrentNote w') = 7) \/
     (0 <= pitch (melodyCurrentNote w') <= 6 /\
      (pitch (bassCurrentNote w') = (pitch (melodyCurrentNote w') + 2) mod 7 \/
       pitch (bassCurrentNote w') = (pitch (melodyCurrentNote w') + 4) mod 7))).
Proof.
  assert (H : voices_ok (power_on (const_draws 3)))
    by (unfold voices_ok, pitch_ok, octave_ok; cbn; lia).
  split; [exact H|].
  apply (cycle_leaves_voices_in_harmony f4_0 f5_0 (power_on (const_draws 3)) H).
Defined.

(** The same cycle, run: melody pitch 3, bass pitch 0, the fifth above. *)
Example harmony_run :
  notes_of (playNote f4_0 f5_0 (power_on (const_draws 3)))
  = Some (mkNote 3 4 125, mkNote 0 1 125).
Proof. reflexivity. Qed.

(** X8: in a cycle with [totalAcc < 0.5] or [totalSpin < 0.5] both voices
    fall silent: the cycle prints the melody's duration and octave and the
    pitch 7, and asks both buzzers for the silence symbol of the scale
    table. *)
Theorem silenced_cycle_output (totalAcc totalSpin : float) (w : world) :
  (totalAcc <? lit_0_5)%fl = true \/ (totalSpin <? lit_0_5)%fl = true ->
  exists w',
    playNote totalAcc totalSpin w = Some (tt, w') /\
    pitch (melodyCurrentNote w') = 7 /\
    pitch (bassCurrentNote w') = 7 /\
    output w' = output w
                ++ [Println (duration (melodyCurrentNote w'));
                    Println (octave (melodyCurrentNote w'));
                    Println 7;
                    Tone BUZZZER_PIN_1 SILENCE; Tone BUZZZER_PIN_2 SILENCE].
Proof.
  intros Hs.
  destruct (playNote_run totalAcc totalSpin w)
    as (w1 & w2 & fm & fb & w' & Hrun1 & Hrun2 & Hfm & Hfb & Hplay & Hm' & Hb' & Hout).
  destruct (defineMelodyNote_run totalAcc totalSpin w)
    as (p1 & w0 & i & d & w1' & _ & _ & _ & _ & _ & Hrun1' & Hmel & _).
  rewrite Hrun1 in Hrun1'. destruct (Some_pair_inj Hrun1') as [_ ->].
  assert (Hp7 : pitch (melodyCurrentNote w1) = 7).
  { rewrite Hmel. cbn [pitch]. unfold silence_override.
    destruct Hs as [-> | ->]; [reflexivity | rewrite orb_true_r; reflexivity]. }
  assert (Hok : pitch_ok (melodyCurrentNote w1)) by (unfold pitch_ok; lia).
  destruct (defineBassNote_run totalAcc totalSpin w1 Hok)
    as (row & c & p & i' & d' & w2' & Hrow & _ & Hcr & Hp & _ & _ & _ & _
        & Hrun2' & Hbass & Hmel2 & _).
  rewrite Hrun2 in Hrun2'. destruct (Some_pair_inj Hrun2') as [_ ->].
  pose proof (harmonics_intervals _ c _ _ Hok ltac:(lia) Hrow Hp) as E.
  rewrite Hp7 in E. cbn in E.
  assert (Hb7 : pitch (bassCurrentNote w2) = 7) by (rewrite Hbass; exact E).
  assert (Hm7 : pitch (melodyCurrentNote w2) = 7) by (rewrite Hmel2; exact Hp7).
  exists w'. split; [exact Hplay|].
  rewrite Hout, Hm', Hb', Hm7, Hb7.
  rewrite (scale_lookup_silence _ _ _ _ Hm7 Hfm).
  rewrite (scale_lookup_silence _ _ _ _ Hb7 Hfb).
  repeat split.
Qed.

Lemma silenced_cycle_output_witness :
  ((f0_2 <? lit_0_5)%fl = true \/ (f5_0 <? lit_0_5)%fl = true) /\
  exists w',
    playNote f0_2 f5_0 (power_on (const_draws 4)) = Some (tt, w') /\
    pitch (melodyCurrentNote w') = 7 /\
    pitch (bassCurrentNote w') = 7 /\
    output w' = output (power_on (const_draws 4))
                ++ [Println (duration (melodyCurrentNote w'));
                    Println (octave (melodyCurrentNote w'));
                    Println 7;
                    Tone BUZZZER_PIN_1 SILENCE; Tone BUZZZER_PIN_2 SILENCE].
Proof.
  split; [left; reflexivity|].
  apply (silenced_cycle_output f0_2 f5_0 (power_on (const_draws 4))).
  left; reflexivity.
Defined.

(** The same cycle, run. *)
Example silenced_cycle_run :
  option_map (fun r => output (snd r))
    (playNote f0_2 f5_0 (power_on (const_draws 4)))
  = Some [Println 125; Println 2; Println 7;
          Tone BUZZZER_PIN_1 SILENCE; Tone BUZZZER_PIN_2 SILENCE].
Proof. reflexivity. Qed.

(** X9: a cycle leaves the sequence of raw draws as it is and takes four
    draws from it when [totalSpin < 3] or [totalSpin > 4] (pitch walk,
    melody duration, harmonics column, bass duration) and three otherwise;
    it sends five outputs. *)
Theorem cycle_draws (totalAcc totalSpin : float) (w : world) :
  exists w',
    playNote totalAcc totalSpin w = Some (tt, w') /\
    entropy w' = entropy w /\
    taken w' = (if (totalSpin <? int_3)%fl || (totalSpin >? int_4)%fl
                then taken w + 4 else taken w + 3)%nat /\
    length (output w') = (length (output w) + 5)%nat.
Proof.
  destruct (playNote_world totalAcc totalSpin w)
    as (w1 & w2 & fm & fb & w' & Hrun1 & Hrun2 & _ & _ & Hplay & ->).
  destruct (defineMelodyNote_run totalAcc totalSpin w)
    as (p1 & w0 & i & d & w1' & Hwalk & _ & _ & _ & _ & Hrun1' & Hmel & _
        & He1 & Ht1 & Ho1).
  rewrite Hrun1 in Hrun1'. destruct (Some_pair_inj Hrun1') as [_ ->].
  assert (Hok : pitch_ok (melodyCurrentNote w1)).
  { unfold pitch_ok. rewrite Hmel. cbn [pitch].
    apply silence_override_range, melody_pitch_clamp_range. }
  destruct (defineBassNote_run totalAcc totalSpin w1 Hok)
    as (row & c & p & i' & d' & w2' & _ & _ & _ & _ & _ & _ & _ & _
        & Hrun2' & _ & _ & He2 & Ht2 & Ho2).
  rewrite Hrun2 in Hrun2'. destruct (Some_pair_inj Hrun2') as [_ ->].
  eexists. split; [exact Hplay|]. cbn [entropy taken output].
  rewrite He2, He1, Ht2, Ht1, Ho2, Ho1, length_app. cbn [length].
  rewrite melody_pitch_walk_cases in Hwalk.
  repeat split.
  destruct (totalSpin <? int_3)%fl; cbn [orb].
  - destruct (Some_pair_inj Hwalk) as [_ ->]. cbn [tick taken]. lia.
  - destruct (totalSpin >? int_4)%fl;
      destruct (Some_pair_inj Hwalk) as [_ ->]; cbn [tick taken]; lia.
Qed.

(** X10: a rest caused by low acceleration is short.  In a cycle with
    [totalAcc < 0.5] both voices hold the silence pitch and both
    durations are 125 or 250 milliseconds. *)
Theorem low_acceleration_rest_is_short (totalAcc totalSpin : float) (w : world) :
  (totalAcc <? lit_0_5)%fl = true ->
  exists w',
    playNote totalAcc totalSpin w = Some (tt, w') /\
    pitch (melodyCurrentNote w') = 7 /\
    pitch (bassCurrentNote w') = 7 /\
    (duration (melodyCurrentNote w') = 125 \/ duration (melodyCurrentNote w') = 250) /\
    (duration (bassCurrentNote w') = 125 \/ duration (bassCurrentNote w') = 250).
Proof.
  intros Hacc.
  assert (Hb : band_of totalAcc = Fast).
  { apply band_of_fast. left.
    change (totalAcc >? lit_0_5)%fl with (lit_0_5 <? totalAcc)%fl.
    apply flt_asym, Hacc. }
  destruct (playNote_run totalAcc totalSpin w)
    as (w1 & w2 & fm & fb & w' & Hrun1 & Hrun2 & _ & _ & Hplay & Hm' & Hb' & _).
  destruct (defineMelodyNote_run totalAcc totalSpin w)
    as (p1 & w0 & i & d & w1' & _ & _ & _ & Hi & Hd & Hrun1' & Hmel & _).
  rewrite Hrun1 in Hrun1'. destruct (Some_pair_inj Hrun1') as [_ ->].
  assert (Hp7 : pitch (melodyCurrentNote w1) = 7).
  { rewrite Hmel. cbn [pitch]. unfold silence_override. rewrite Hacc. reflexivity. }
  assert (Hok : pitch_ok (melodyCurrentNote w1)) by (unfold pitch_ok; lia).
  destruct (defineBassNote_run totalAcc totalSpin w1 Hok)
    as (row & c & p & i' & d' & w2' & Hrow & _ & Hcr & Hp & _ & _ & Hi' & Hd'
        & Hrun2' & Hbass & Hmel2 & _).
  rewrite Hrun2 in Hrun2'. destruct (Some_pair_inj Hrun2') as [_ ->].
  pose proof (harmonics_intervals _ c _ _ Hok ltac:(lia) Hrow Hp) as E.
  rewrite Hp7 in E. cbn in E.
  rewrite Hb in Hi, Hi'. cbn [band_lo band_hi] in Hi, Hi'.
  destruct (noteDuration_values _ _ Hd) as (U1 & U2 & _).
  destruct (noteDuration_values _ _ Hd') as (V1 & V2 & _).
  exists w'. split; [exact Hplay|].
  rewrite Hm', Hb', Hmel2, Hbass, Hmel. cbn [pitch duration].
  rewrite Hmel in Hp7. cbn [pitch] in Hp7.
  repeat split; try assumption; lia.
Qed.

Lemma low_acceleration_rest_is_short_witness :
  (f0_2 <? lit_0_5)%fl = true /\
  exists w',
    playNote f0_2 f5_0 (power_on (const_draws 9)) = Some (tt, w') /\
    pitch (melodyCurrentNote w') = 7 /\
    (duration (melodyCurrentNote w') = 125 \/ duration (melodyCurrentNote w') = 250).
Proof.
  split; [reflexivity|].
  destruct (low_acceleration_rest_is_short f0_2 f5_0 (power_on (const_draws 9))
              eq_refl)
    as (w' & Hrun & Hp & _ & Hd & _).
  exists w'. auto.
Defined.

(* ------------------------------------------------------------------ *)
(** ** The octave walks, step by step and over many cycles *)

(** One cycle, as to the octaves. *)
Lemma playNote_octaves (totalAcc totalSpin : float) (w : world) :
  exists w',
    playNote totalAcc totalSpin w = Some (tt, w') /\
    octave (melodyCurrentNote w')
    = melody_octave_wrap (melody_octave_walk totalAcc (octave (melodyCurrentNote w))) /\
    octave (bassCurrentNote w')
    = bass_octave_wrap (bass_octave_walk totalSpin (octave (bassCurrentNote w))).
Proof.
  destruct (playNote_run totalAcc totalSpin w)
    as (w1 & w2 & fm & fb & w' & Hrun1 & Hrun2 & _ & _ & Hplay & Hm' & Hb' & _).
  destruct (defineMelodyNote_run totalAcc totalSpin w)
    as (p1 & w0 & i & d & w1' & _ & _ & _ & _ & _ & Hrun1' & Hmel & Hbass1 & _).
  rewrite Hrun1 in Hrun1'. destruct (Some_pair_inj Hrun1') as [_ ->].
  assert (Hok : pitch_ok (melodyCurrentNote w1)).
  { unfold pitch_ok. rewrite Hmel. cbn [pitch].
    apply silence_override_range, melody_pitch_clamp_range. }
  destruct (defineBassNote_run totalAcc totalSpin w1 Hok)
    as (row & c & p & i' & d' & w2' & _ & _ & _ & _ & _ & _ & _ & _
        & Hrun2' & Hbass & Hmel2 & _).
  rewrite Hrun2 in Hrun2'. destruct (Some_pair_inj Hrun2') as [_ ->].
  exists w'. split; [exact Hplay|].
  rewrite Hm', Hb', Hmel2, Hbass, Hmel, Hbass1. cbn [octave]. auto.
Qed.

(** X11: the octave of a voice never rests.  From octaves between 0 and
    5, a cycle whose magnitudes compare with 3 moves the melody octave one
    down when [totalAcc < 3] (from 0 to 5) and one up otherwise (from 5 to
    2), and the bass octave one down when [totalSpin < 3] (from 0 to 2)
    and one up otherwise (from 5 to 0); neither octave stays where it
    was. *)
Theorem octaves_always_move (totalAcc totalSpin : float) (w : world) :
  octave_ok (melodyCurrentNote w) -> octave_ok (bassCurrentNote w) ->
  (totalAcc <? int_3)%fl || (totalAcc >=? int_3)%fl = true ->
  (totalSpin <? int_3)%fl || (totalSpin >=? int_3)%fl = true ->
  exists w',
    playNote totalAcc totalSpin w = Some (tt, w') /\
    octave (melodyCurrentNote w')
    = (let o := octave (melodyCurrentNote w) in
       if (totalAcc <? int_3)%fl then (if o =? 0 then 5 else o - 1)
       else (if o =? 5 then 2 else o + 1)) /\
    octave (bassCurrentNote w')
    = (let o := octave (bassCurrentNote w) in
       if (totalSpin <? int_3)%fl then (if o =? 0 then 2 else o - 1)
       else (if o =? 5 then 0 else o + 1)) /\
    octave (melodyCurrentNote w') <> octave (melodyCurrentNote w) /\
    octave (bassCurrentNote w') <> octave (bassCurrentNote w).
Proof.
  unfold octave_ok. intros Hm Hb Ha Hs.
  destruct (playNote_octaves totalAcc totalSpin w) as (w' & Hplay & Hm' & Hb').
  exists w'. split; [exact Hplay|]. rewrite Hm', Hb'. cbv zeta.
  unfold melody_octave_wrap, melody_octave_walk, bass_octave_wrap, bass_octave_walk.
  destruct (totalAcc <? int_3)%fl eqn:Ea;
    [rewrite (flt_not_fge _ _ Ea) | cbn [orb] in Ha; rewrite Ha];
    (destruct (totalSpin <? int_3)%fl eqn:Es;
     [rewrite (flt_not_fge _ _ Es) | cbn [orb] in Hs; rewrite Hs]);
    repeat match goal with
      | |- context [Z.ltb ?a ?b] => destruct (Z.ltb_spec a b)
      | |- context [Z.gtb ?a ?b] => destruct (Z.gtb_spec a b)
      | |- context [Z.eqb ?a ?b] => destruct (Z.eqb_spec a b)
      end; repeat split; lia.
Qed.

Lemma octaves_always_move_witness :
  octave_ok (melodyCurrentNote (power_on (const_draws 1))) /\
  octave_ok (bassCurrentNote (power_on (const_draws 1))) /\
  exists w',
    playNote f2_0 f2_0 (power_on (const_draws 1)) = Some (tt, w') /\
    octave (melodyCurrentNote w') = 2 /\ octave (bassCurrentNote w') = 2.
Proof.
  assert (Hm : octave_ok (melodyCurrentNote (power_on (const_draws 1))))
    by (unfold octave_ok; cbn; lia).
  assert (Hb : octave_ok (bassCurrentNote (power_on (const_draws 1))))
    by (unfold octave_ok; cbn; lia).
  split; [exact Hm|]. split; [exact Hb|].
  destruct (octaves_always_move f2_0 f2_0 (power_on (const_draws 1))
              Hm Hb eq_refl eq_refl)
    as (w' & Hrun & Ho & Ho' & _).
  exists w'. split; [exact Hrun|]. rewrite Ho, Ho'. split; reflexivity.
Defined.

(** X12: while the board spins slowly the bass stays in the low register.
    Over any number of cycles with [totalSpin < 3], a bass octave between
    0 and 2, as at power-on, stays between 0 and 2. *)
Theorem slow_spin_keeps_bass_low (readings : list (float * float)) (w : world) :
  Forall (fun r => (snd r <? int_3)%fl = true) readings ->
  0 <= octave (bassCurrentNote w) <= 2 ->
  exists w',
    play_cycles readings w = Some (tt, w') /\
    0 <= octave (bassCurrentNote w') <= 2.
Proof.
  intros Hall. revert w.
  induction Hall as [|[totalAcc totalSpin] rest Hs _ IH]; intros w Ho.
  - exists w. split; [reflexivity | exact Ho].
  - cbn [snd] in Hs.
    destruct (playNote_octaves totalAcc totalSpin w) as (w1 & Hplay & _ & Hb).
    assert (Ho1 : 0 <= octave (bassCurrentNote w1) <= 2).
    { rewrite Hb. unfold bass_octave_wrap, bass_octave_walk.
      rewrite Hs, (flt_not_fge _ _ Hs).
      destruct (Z.ltb_spec (octave (bassCurrentNote w) - 1) 0);
        [cbn; lia|].
      destruct (Z.gtb_spec (octave (bassCurrentNote w) - 1) 5); lia. }
    destruct (IH w1 Ho1) as (w' & Hrest & Ho').
    exists w'. split; [|exact Ho'].
    cbn [play_cycles]. unfold bind. rewrite Hplay. exact Hrest.
Qed.

Lemma slow_spin_keeps_bass_low_witness :
  Forall (fun r => (snd r <? int_3)%fl = true) [(f4_0, f2_0); (f0_6, f0_2)] /\
  0 <= octave (bassCurrentNote (power_on (const_draws 2))) <= 2 /\
  exists w',
    play_cycles [(f4_0, f2_0); (f0_6, f0_2)] (power_on (const_draws 2))
    = Some (tt, w') /\
    0 <= octave (bassCurrentNote w') <= 2.
Proof.
  assert (Hall : Forall (fun r => (snd r <? int_3)%fl = true)
                   [(f4_0, f2_0); (f0_6, f0_2)])
    by (repeat constructor).
  assert (Ho : 0 <= octave (bassCurrentNote (power_on (const_draws 2))) <= 2)
    by (cbn; lia).
  split; [exact Hall|]. split; [exact Ho|].
  apply (slow_spin_keeps_bass_low _ _ Hall Ho).
Defined.

(** X13: under sustained strong acceleration the melody stays out of the
    two lowest octaves.  Over any number of cycles with [totalAcc >= 3], a
    melody octave between 2 and 5, as at power-on, stays between 2
    and 5. *)
Theorem strong_acceleration_keeps_melody_high
  (readings : list (float * float)) (w : world) :
  Forall (fun r => (fst r >=? int_3)%fl = true) readings ->
  2 <= octave (melodyCurrentNote w) <= 5 ->
  exists w',
    play_cycles readings w = Some (tt, w') /\
    2 <= octave (melodyCurrentNote w') <= 5.
Proof.
  intros Hall. revert w.
  induction Hall as [|[totalAcc totalSpin] rest Hs _ IH]; intros w Ho.
  - exists w. split; [reflexivity | exact Ho].
  - cbn [fst] in Hs.
    destruct (playNote_octaves totalAcc totalSpin w) as (w1 & Hplay & Hm & _).
    assert (Ho1 : 2 <= octave (melodyCurrentNote w1) <= 5).
    { rewrite Hm. unfold melody_octave_wrap, melody_octave_walk.
      rewrite Hs, (fge_not_flt _ _ Hs).
      destruct (Z.ltb_spec (octave (melodyCurrentNote w) + 1) 0); [lia|].
      destruct (Z.gtb_spec (octave (melodyCurrentNote w) + 1) 5); lia. }
    destruct (IH w1 Ho1) as (w' & Hrest & Ho').
    exists w'. split; [|exact Ho'].
    cbn [play_cycles]. unfold bind. rewrite Hplay. exact Hrest.
Qed.

Lemma strong_acceleration_keeps_melody_high_witness :
  Forall (fun r => (fst r >=? int_3)%fl = true)
    [(f4_0, f2_0); (f5_0, f0_2); (f4_0, f5_0)] /\
  2 <= octave (melodyCurrentNote (power_on (const_draws 2))) <= 5 /\
  exists w',
    play_cycles [(f4_0, f2_0); (f5_0, f0_2); (f4_0, f5_0)]
      (power_on (const_draws 2)) = Some (tt, w') /\
    2 <= octave (melodyCurrentNote w') <= 5.
Proof.
  assert (Hall : Forall (fun r => (fst r >=? int_3)%fl = true)
                   [(f4_0, f2_0); (f5_0, f0_2); (f4_0, f5_0)])
    by (repeat constructor).
  assert (Ho : 2 <= octave (melodyCurrentNote (power_on (const_draws 2))) <= 5)
    by (cbn; lia).
  split; [exact Hall|]. split; [exact Ho|].
  apply (strong_acceleration_keeps_melody_high _ _ Hall Ho).
Defined.

(* ------------------------------------------------------------------ *)
(** ** The polling loop: what it waits for and what it stops *)

Lemma total_delay_app (a b : list action) :
  total_delay (a ++ b) = total_delay a + total_delay b.
Proof.
  induction a as [|[ms|pin] a IH]; cbn [app total_delay]; rewrite ?IH; lia.
Qed.

(** One iteration: it waits for the duration just given to the melody,
    one of the four reachable table values, then stops both buzzers. *)
Lemma loop_run (totalAcc totalSpin : float) (w : world) :
  exists d w',
    loop totalAcc totalSpin w
    = Some ([Delay d; NoTone BUZZZER_PIN_1; NoTone BUZZZER_PIN_2], w') /\
    playNote totalAcc totalSpin w = Some (tt, w') /\
    d = duration (melodyCurrentNote w') /\
    (d = 125 \/ d = 250 \/ d = 500 \/ d = 1000) /\
    ((totalAcc <? int_3)%fl = false -> d <= 250).
Proof.
  destruct (playNote_run totalAcc totalSpin w)
    as (w1 & w2 & fm & fb & w' & Hrun1 & Hrun2 & _ & _ & Hplay & Hm' & _).
  destruct (defineMelodyNote_run totalAcc totalSpin w)
    as (p1 & w0 & i & d & w1' & _ & _ & _ & Hi & Hd & Hrun1' & Hmel & _).
  rewrite Hrun1 in Hrun1'. destruct (Some_pair_inj Hrun1') as [_ ->].
  assert (Hok : pitch_ok (melodyCurrentNote w1)).
  { unfold pitch_ok. rewrite Hmel. cbn [pitch].
    apply silence_override_range, melody_pitch_clamp_range. }
  destruct (defineBassNote_run totalAcc totalSpin w1 Hok)
    as (row & c & p & i' & d' & w2' & _ & _ & _ & _ & _ & _ & _ & _
        & Hrun2' & _ & Hmel2 & _).
  rewrite Hrun2 in Hrun2'. destruct (Some_pair_inj Hrun2') as [_ ->].
  assert (Hdur : duration (melodyCurrentNote w') = d).
  { rewrite Hm', Hmel2, Hmel. reflexivity. }
  exists d, w'. unfold loop, bind, gets, ret. rewrite Hplay, Hdur.
  destruct (noteDuration_values _ _ Hd) as (V1 & V2 & V3 & V4 & _).
  assert (Hi19 : 0 <= i < 19) by (destruct (band_of totalAcc); cbn in Hi; lia).
  repeat split.
  - destruct (Z_lt_dec i 8); [left; apply V1; lia|].
    destruct (Z_lt_dec i 12); [right; left; apply V2; lia|].
    destruct (Z_lt_dec i 16); [right; right; left; apply V3; lia|].
    right; right; right; apply V4; lia.
  - intros H3.
    rewrite (band_of_fast totalAcc (or_intror (or_intror H3))) in Hi.
    cbn [band_lo band_hi] in Hi.
    destruct (Z_lt_dec i 8); [rewrite V1; lia | rewrite V2; lia].
Qed.

(** One iteration from a state with the voices in range leaves them in
    range. *)
Lemma loop_voices_ok (totalAcc totalSpin : float) (w : world) :
  exists d w',
    loop totalAcc totalSpin w
    = Some ([Delay d; NoTone BUZZZER_PIN_1; NoTone BUZZZER_PIN_2], w') /\
    playNote totalAcc totalSpin w = Some (tt, w') /\
    d = duration (melodyCurrentNote w') /\
    (d = 125 \/ d = 250 \/ d = 500 \/ d = 1000) /\
    ((totalAcc <? int_3)%fl = false -> d = 125 \/ d = 250) /\
    voices_ok w'.
Proof.
  destruct (loop_run totalAcc totalSpin w) as (d & w' & Hloop & Hplay & Hd & Hset & Hfast).
  destruct (playNote_voices_ok totalAcc totalSpin w) as (w'' & Hplay' & Hok).
  rewrite Hplay in Hplay'. destruct (Some_pair_inj Hplay') as [_ ->].
  exists d, w'. repeat split; try assumption; try apply Hok.
  intros H3. specialize (Hfast H3). destruct Hset as [E|[E|[E|E]]]; auto; lia.
Qed.



(** X15: under sustained strong acceleration the sketch plays fast.  From
    a state with both voices in range, over [n] iterations in which
    [totalAcc] is never below 3, every wait is the duration just given to
    the melody and is 125 or 250 milliseconds, so the iterations wait
    between [125 * n] and [250 * n] milliseconds in all: four notes a
    second at least. *)
Theorem strong_acceleration_plays_fast
  (readings : list (float * float)) (w : world) :
  Forall (fun r => (fst r <? int_3)%fl = false) readings ->
  voices_ok w ->
  exists ds acts w',
    loops readings w = Some (acts, w') /\
    melody_durations readings w = Some (ds, w') /\
    length ds = length readings /\
    Forall (fun d => d = 125 \/ d = 250) ds /\
    acts = flat_map (fun d => [Delay d; NoTone BUZZZER_PIN_1; NoTone BUZZZER_PIN_2]) ds /\
    125 * Z.of_nat (length readings) <= total_delay acts
    <= 250 * Z.of_nat (length readings).
Proof.
  intros Hall. revert w.
  induction Hall as [|[totalAcc totalSpin] rest H3 _ IH]; intros w Hw.
  - exists [], [], w. repeat split; cbn; try constructor; lia.
  - cbn [fst] in H3.
    destruct (loop_voices_ok totalAcc totalSpin w)
      as (d & w1 & Hloop & Hplay & Hdur & _ & Hfast & Hw1).
    specialize (Hfast H3).
    destruct (IH w1 Hw1) as (ds & acts & w' & Hrest & Hds & Hlen & Hfa & Hacts & Hsum).
    exists (d :: ds). eexists. exists w'.
    split; [cbn [loops]; unfold bind; rewrite Hloop, Hrest; reflexivity|].
    split; [cbn [melody_durations]; unfold bind, gets; rewrite Hplay, Hds, <- Hdur;
            reflexivity|].
    split; [cbn [length]; rewrite Hlen; reflexivity|].
    split; [constructor; assumption|].
    split; [cbn [flat_map]; rewrite Hacts; reflexivity|].
    rewrite total_delay_app. cbn [total_delay length].
    rewrite Nat2Z.inj_succ. split; lia.
Qed.

Lemma strong_acceleration_plays_fast_witness :
  Forall (fun r => (fst r <? int_3)%fl = false) [(f4_0, f2_0); (f5_0, f5_0)] /\
  voices_ok (power_on (const_draws 9)) /\
  exists ds acts w',
    loops [(f4_0, f2_0); (f5_0, f5_0)] (power_on (const_draws 9)) = Some (acts, w') /\
    Forall (fun d => d = 125 \/ d = 250) ds /\
    acts = flat_map (fun d => [Delay d; NoTone BUZZZER_PIN_1; NoTone BUZZZER_PIN_2]) ds /\
    total_delay acts <= 500.
Proof.
  assert (Hall : Forall (fun r => (fst r <? int_3)%fl = false)
                   [(f4_0, f2_0); (f5_0, f5_0)])
    by (repeat constructor).
  assert (H : voices_ok (power_on (const_draws 9)))
    by (unfold voices_ok, pitch_ok, octave_ok; cbn; lia).
  split; [exact Hall|]. split; [exact H|].
  destruct (strong_acceleration_plays_fast _ (power_on (const_draws 9)) Hall H)
    as (ds & acts & w' & Hrun & _ & _ & Hfa & Hacts & _ & Hle).
  exists ds, acts, w'. repeat split; try assumption.
Defined.

(** Two iterations, run. *)
Example loops_run :
  option_map fst (loops [(f2_0, f2_0); (f0_6, f5_0)] (power_on (const_draws 6)))
  = Some [Delay 1000; NoTone BUZZZER_PIN_1; NoTone BUZZZER_PIN_2;
          Delay 1000; NoTone BUZZZER_PIN_1; NoTone BUZZZER_PIN_2].
Proof. reflexivity. Qed.

(* ------------------------------------------------------------------ *)
(** ** No table is ever read outside its bounds *)

(** X16: a cycle never reads a table outside its bounds.  From a state
    with both voices in range, as every state reached from power-on is,
    and for any magnitudes, not-a-number included, [playNote] returns; the
    three values it prints are the new duration, octave and pitch of the
    melody, and the two tones it asks for are the entries of the scale
    table at the new octave and pitch of the melody and of the bass. *)
Theorem cycle_output (totalAcc totalSpin : float) (w : world) :
  voices_ok w ->
  exists w' rm rb fm fb,
    playNote totalAcc totalSpin w = Some (tt, w') /\
    voices_ok w' /\
    nth_error bb_scale (Z.to_nat (octave (melodyCurrentNote w'))) = Some rm /\
    nth_error rm (Z.to_nat (pitch (melodyCurrentNote w'))) = Some fm /\
    nth_error bb_scale (Z.to_nat (octave (bassCurrentNote w'))) = Some rb /\
    nth_error rb (Z.to_nat (pitch (bassCurrentNote w'))) = Some fb /\
    output w' = output w
                ++ [Println (duration (melodyCurrentNote w'));
                    Println (octave (melodyCurrentNote w'));
                    Println (pitch (melodyCurrentNote w'));
                    Tone BUZZZER_PIN_1 fm; Tone BUZZZER_PIN_2 fb].
Proof.
  intros _.
  destruct (playNote_run totalAcc totalSpin w)
    as (w1 & w2 & fm & fb & w' & _ & _ & Hfm & Hfb & Hplay & Hm' & Hb' & Hout).
  destruct (playNote_voices_ok totalAcc totalSpin w) as (w'' & Hplay' & Hok).
  rewrite Hplay in Hplay'. destruct (Some_pair_inj Hplay') as [_ ->].
  pose proof Hok as (Hmp & Hmo & Hbp & Hbo).
  rewrite Hm' in Hmp, Hmo. rewrite Hb' in Hbp, Hbo.
  destruct (scale_lookup_run _ w2 Hmo Hmp) as (rm & fm' & Hrm & Hfm' & Hlm).
  destruct (scale_lookup_run _ w2 Hbo Hbp) as (rb & fb' & Hrb & Hfb' & Hlb).
  rewrite Hfm in Hlm. destruct (Some_pair_inj Hlm) as [-> _].
  rewrite Hfb in Hlb. destruct (Some_pair_inj Hlb) as [-> _].
  exists w', rm, rb, fm, fb. rewrite Hm', Hb' in *.
  repeat split; try assumption; apply Hok.
Qed.

Lemma cycle_output_witness :
  voices_ok (power_on (const_draws 3)) /\
  exists w' fm fb,
    playNote f4_0 f5_0 (power_on (const_draws 3)) = Some (tt, w') /\
    output w' = output (power_on (const_draws 3))
                ++ [Println (duration (melodyCurrentNote w'));
                    Println (octave (melodyCurrentNote w'));
                    Println (pitch (melodyCurrentNote w'));
                    Tone BUZZZER_PIN_1 fm; Tone BUZZZER_PIN_2 fb].
Proof.
  assert (H : voices_ok (power_on (const_draws 3)))
    by (unfold voices_ok, pitch_ok, octave_ok; cbn; lia).
  split; [exact H|].
  destruct (cycle_output f4_0 f5_0 (power_on (const_draws 3)) H)
    as (w' & rm & rb & fm & fb & Hrun & _ & _ & _ & _ & _ & Hout).
  exists w', fm, fb. split; assumption.
Defined.

(** The same cycle, run: the melody sounds entry 3 of row 4 of the scale
    table, the bass entry 0 of row 1. *)
Example cycle_output_run :
  option_map (fun r => output (snd r))
    (playNote f4_0 f5_0 (power_on (const_draws 3)))
  = Some [Println 125; Println 4; Println 3;
          Tone BUZZZER_PIN_1 NOTE_DS5; Tone BUZZZER_PIN_2 NOTE_AS2].
Proof. reflexivity. Qed.

(** X17: the voices stay valid for ever.  After any number of cycles from
    power-on, whatever the magnitudes and the draws, the cycles have all
    returned and both voices hold a pitch from 0 to 7 and an octave from 0
    to 5. *)
Theorem voices_valid_from_power_on
  (readings : list (float * float)) (e : nat -> N) :
  exists w',
    play_cycles readings (power_on e) = Some (tt, w') /\
    voices_ok w'.
Proof.
  apply play_cycles_voices_ok.
  unfold voices_ok, pitch_ok, octave_ok. cbn. lia.
Qed.
